(** * edx-xapi-bridge: the ingestion pipeline

    A shallow embedding of [xapi_bridge/converter.py] ([to_xapi]) and of
    [xapi_bridge/__main__.py] ([QueueManager.push], [QueueManager.publish],
    [TailHandler.process_IN_MODIFY]), with the properties of the
    specification stated over it.

    Python objects are modelled by their values, the interpreter state the
    three functions share (the queue's fields, the tailer's buffer, the
    timers and the remote store) by one record that is threaded through a
    small state / exception / trace monad. *)

From Stdlib Require Import ZArith Lia String Ascii.
From stdpp Require Import base list strings gmap.

Set Warnings "-register-all".
Local Open Scope Z_scope.

(** ** Python strings *)

(** The line terminator ['\n']. *)
Definition newline : ascii := "010"%char.

(** [replace_from old new skip s]: the left-to-right scan of
    [str.replace] for a non-empty [old]; [skip] counts the characters of a
    match that are still to be dropped. *)
Fixpoint replace_from (old new : string) (skip : nat) (s : string) : string :=
  match s with
  | EmptyString => EmptyString
  | String c s' =>
      match skip with
      | S k => replace_from old new k s'
      | O =>
          if String.prefix old s
          then new +:+ replace_from old new (String.length old - 1) s'
          else String c (replace_from old new 0 s')
      end
  end.

(** An empty [old] matches before every character and at the end. *)
Fixpoint replace_empty (new : string) (s : string) : string :=
  match s with
  | EmptyString => new
  | String c s' => new +:+ String c (replace_empty new s')
  end.

(** [s.replace(old, new)] *)
Definition str_replace (s old new : string) : string :=
  match old with
  | EmptyString => replace_empty new s
  | String _ _ => replace_from old new 0 s
  end.

(** The stripping as the specification words it, to compare with what
    [str_replace] does: a leading [p] is taken off, a string that does not
    start with [p] is left as it is. *)
Definition strip_prefix (p s : string) : string :=
  if String.prefix p s
  then String.substring (String.length p) (String.length s - String.length p) s
  else s.

(** [s.split(sep)] for a one-character separator: never the empty list. *)
Fixpoint str_split (sep : ascii) (s : string) : list string :=
  match s with
  | EmptyString => [EmptyString]
  | String c s' =>
      if Ascii.eqb c sep then EmptyString :: str_split sep s'
      else match str_split sep s' with
           | seg :: rest => String c seg :: rest
           | [] => [String c EmptyString]
           end
  end.

(** [s[-1]], [None] standing for the IndexError of an empty string. *)
Fixpoint last_char (s : string) : option ascii :=
  match s with
  | EmptyString => None
  | String c EmptyString => Some c
  | String _ s' => last_char s'
  end.

(** ** Decoded JSON values, as [json.loads] returns them *)

Inductive json :=
  | JNull
  | JBool (b : bool)
  | JNum (z : Z)
  | JStr (s : string)
  | JArr (l : list json)
  | JObj (d : gmap string json).

(** ** converter.py: the dispatch table *)

Inductive statement_class :=
  | CourseEnrollmentStatement
  | CourseUnenrollmentStatement
  | CourseCompletionStatement
  | ProblemCheckStatement
  | VideoStatement
  | VideoPlayStatement
  | VideoPauseStatement
  | VideoCompleteStatement
  | VideoSeekStatement
  | VideoTranscriptStatement.

Definition TRACKING_EVENTS_TO_XAPI_STATEMENT_MAP : gmap string statement_class :=
  list_to_map [
    ("edx.course.enrollment.activated", CourseEnrollmentStatement);
    ("edx.course.enrollment.deactivated", CourseUnenrollmentStatement);
    ("edx.certificate.created", CourseCompletionStatement);
    ("problem_check", ProblemCheckStatement);
    ("ready_video", VideoStatement);
    ("load_video", VideoStatement);
    ("edx.video.loaded", VideoStatement);
    ("play_video", VideoPlayStatement);
    ("edx.video.played", VideoPlayStatement);
    ("pause_video", VideoPauseStatement);
    ("edx.video.paused", VideoPauseStatement);
    ("stop_video", VideoCompleteStatement);
    ("edx.video.stopped", VideoCompleteStatement);
    ("seek_video", VideoSeekStatement);
    ("edx.video.position.changed", VideoSeekStatement);
    ("show_transcript", VideoTranscriptStatement);
    ("hide_transcript", VideoTranscriptStatement);
    ("edx.video.transcript.shown", VideoTranscriptStatement);
    ("edx.video.transcript.hidden", VideoTranscriptStatement);
    ("edx.video.closed_captions.shown", VideoTranscriptStatement);
    ("edx.video.closed_captions.hidden", VideoTranscriptStatement)
  ].

(** ** settings *)

(** The [settings] module is configuration loaded before the core starts;
    the functions below take it as a parameter.  [PUBLISH_MAX_WAIT_TIME] is
    a number of seconds of which the code only tests the sign. *)
Record Settings := {
  PUBLISH_MAX_PAYLOAD : Z;
  PUBLISH_MAX_WAIT_TIME : Z;
  PUBLISH_MAX_RETRIES : Z;
  IGNORED_EVENT_TYPES : list string;
  TEST_LOAD_SUCCESSFUL_STATEMENTS_BENCHMARK : option Z
}.

(** ** Exceptions, outcomes and the observable trace *)

(** The exception classes the three functions raise, catch or let through.
    [XAPIBridgeStatementStorageError] carries the statement the store
    rejected (its [statement] attribute). *)
Inductive exn {Statement : Type} : Type :=
  | KeyError
  | TypeError
  | AttributeError
  | UnboundLocalError
  | ValueError
  | SystemExit
  | XAPIMalformedStatementError
  | XAPIBridgeStatementConversionError
  | XAPIBridgeLRSConnectionError
  | XAPIBridgeStatementStorageError (statement : Statement)
  | OtherException (name : string).

(** How a call ends: it returns, it raises, it blocks for ever on the
    non-reentrant lock, or the model ran out of loop fuel (shown below never
    to happen). *)
Inductive outcome {Statement A : Type} : Type :=
  | Ret (a : A)
  | Raise (e : @exn Statement)
  | Deadlock
  | OutOfFuel.

(** The fields of a [QueueManager] instance. *)
Inductive field := FCache | FTimer | FRetries | FTotal.

Inductive log_msg {Statement : Type} : Type :=
  | PublishedSuccessfully (total : Z)
  | BenchmarkReached (benchmark : Z)
  | RejectedStatement (statement : Statement)
  | CannotContinue
  | CouldNotParseJSON (line : string)
  | ConversionFailed
  | RefusingToSend (statement : Statement).

(** What an observer of the process sees, in order. *)
Inductive event {Statement : Type} : Type :=
  | EvAcquire
  | EvRelease
  | EvTouch (f : field)
  | EvNet (statements : list Statement)
  | EvLog (m : @log_msg Statement)
  | EvConvert (evt : json)
  | EvTimerStart (h : nat)
  | EvTimerCancel (h : nat).

(** A [threading.Timer] is armed from [start()] until [cancel()]. *)
Inductive timer_state := Armed | Cancelled.

(** The state shared by the tailer, its queue and the remote store: the
    fields of the [QueueManager], the [raceBuffer] of the [TailHandler],
    every timer created so far (a handle is an index) and the store. *)
Record World {Statement Lrs : Type} : Type := {
  cache : list Statement;
  cache_lock : bool;
  publish_timer : option nat;
  publish_retries : Z;
  total_published_successfully : Z;
  raceBuffer : string;
  timers : list timer_state;
  lrs : Lrs
}.

(** ** Trace projections *)

Section Trace.
Context {Statement : Type}.

(** The payloads of the network publish calls, in order. *)
Definition net_calls (t : list (@event Statement)) : list (list Statement) :=
  omap (fun e => match e with EvNet l => Some l | _ => None end) t.

Definition log_of (t : list (@event Statement)) : list (@log_msg Statement) :=
  omap (fun e => match e with EvLog m => Some m | _ => None end) t.

(** The records handed to [converter.to_xapi], in order. *)
Definition dispatched (t : list (@event Statement)) : list json :=
  omap (fun e => match e with EvConvert j => Some j | _ => None end) t.

(** Does every access to a queue field happen between an acquire and the
    matching release?  [held] is the state of the lock before [t]. *)
Fixpoint locked_accesses (held : bool) (t : list (@event Statement)) : bool :=
  match t with
  | [] => true
  | EvAcquire :: t' => locked_accesses true t'
  | EvRelease :: t' => locked_accesses false t'
  | EvTouch _ :: t' => held && locked_accesses held t'
  | _ :: t' => locked_accesses held t'
  end.

End Trace.

(** ** Sessions and stores used as concrete scenarios *)

(** The state [QueueManager.__init__] and [TailHandler.my_init] set up. *)
Definition new_session {Statement Lrs : Type} (store : Lrs)
    : @World Statement Lrs :=
  {| cache := []; cache_lock := false; publish_timer := None;
     publish_retries := 0; total_published_successfully := 0;
     raceBuffer := EmptyString; timers := []; lrs := store |}.

Definition example_settings : Settings :=
  {| PUBLISH_MAX_PAYLOAD := 3; PUBLISH_MAX_WAIT_TIME := 5;
     PUBLISH_MAX_RETRIES := 3; IGNORED_EVENT_TYPES := ["page_close"];
     TEST_LOAD_SUCCESSFUL_STATEMENTS_BENCHMARK := None |}.

(** A store that cannot be reached: every call fails with a
    connection-class error. *)
Definition unreachable_store (store : unit) (statements : list nat)
    : option (@exn nat) * unit :=
  (Some XAPIBridgeLRSConnectionError, store).

(** A store that accepts everything. *)
Definition accepting_store (store : unit) (statements : list nat)
    : option (@exn nat) * unit :=
  (None, store).

(** A store that answers from a script, one entry per call, and accepts
    once the script is used up. *)
Definition scripted_store (script : list (option (@exn nat)))
    (statements : list nat) : option (@exn nat) * list (option (@exn nat)) :=
  match script with
  | [] => (None, [])
  | r :: script' => (r, script')
  end.

(** Statement constructors: one that finds every record malformed, one
    that builds statement [7] from every record. *)
Definition malformed_constructor (c : statement_class) (evt : json)
    : nat + @exn nat :=
  inr XAPIMalformedStatementError.

Definition constant_constructor (c : statement_class) (evt : json)
    : nat + @exn nat :=
  inl 7%nat.

(** A decoder that reads a line as the event type of a record. *)
Definition event_type_decoder (line : string) : option json :=
  Some (JObj {[ "event_type" := JStr line ]}).

(** Two reads of the tracking log, the first ending in the middle of its
    second line. *)
Definition first_read : string :=
  "play_video" +:+ String newline "pause_vi".

Definition second_read : string :=
  "deo" +:+ String newline EmptyString.

Definition play_video_record : json :=
  JObj {[ "event_type" := JStr "xblock-video.play_video" ]}.

(** [sep.join(l)] for a one-character separator, to state what
    [str_split] keeps. *)
Fixpoint str_join (sep : ascii) (l : list string) : string :=
  match l with
  | [] => EmptyString
  | [x] => x
  | x :: l' => x +:+ String sep (str_join sep l')
  end.

(** A store that fails two calls with a connection-class error before
    it accepts, as a script for [scripted_store]. *)
Definition flaky_script : list (option (@exn nat)) :=
  [Some XAPIBridgeLRSConnectionError; Some XAPIBridgeLRSConnectionError; None].

(** A constructor that fails with a conversion error on every record. *)
Definition unconvertible_constructor (c : statement_class) (evt : json)
    : nat + @exn nat :=
  inr XAPIBridgeStatementConversionError.

(** Two complete lines of the tracking log. *)
Definition first_line : string := "play_video" +:+ String newline EmptyString.

Definition second_line : string := "pause_video" +:+ String newline EmptyString.

(** ** The pipeline *)

Section Bridge.

Context {Statement : Type} `{EqDecision Statement} {Lrs : Type}.

(** *** External collaborators *)

(** [client.lrs_publisher.publish_statements]: given the store and the
    submitted sequence, [None] for success or the exception it raises, and
    the store afterwards. *)
Variable publish_statements :
  Lrs -> list Statement -> option (@exn Statement) * Lrs.

(** A statement constructor [statement_class(evt)]: the object built, or
    the exception raised. *)
Variable construct : statement_class -> json -> Statement + @exn Statement.

(** [hasattr(statement, 'version')] *)
Variable hasattr_version : Statement -> bool.

(** [json.loads(line)], [None] for a [ValueError]. *)
Variable json_loads : string -> option json.

Variable settings : Settings.

(** *** The monad *)

Definition M (A : Type) : Type :=
  @World Statement Lrs ->
  @outcome Statement A * @World Statement Lrs * list (@event Statement).

Definition ret {A} (a : A) : M A := fun w => (Ret a, w, []).

(** [after t r]: the result [r] of a computation that ran after the
    events [t] were seen. *)
Definition after {A} (t : list (@event Statement))
    (r : @outcome Statement A * @World Statement Lrs * list (@event Statement))
    : @outcome Statement A * @World Statement Lrs * list (@event Statement) :=
  match r with
  | (o, w, t') => (o, w, t ++ t')
  end.

Definition bind {A B} (m : M A) (f : A -> M B) : M B :=
  fun w =>
    match m w with
    | (Ret a, w1, t1) => after t1 (f a w1)
    | (Raise e, w1, t1) => (Raise e, w1, t1)
    | (Deadlock, w1, t1) => (Deadlock, w1, t1)
    | (OutOfFuel, w1, t1) => (OutOfFuel, w1, t1)
    end.

Notation "x <- m ;; k" := (bind m (fun x => k))
  (at level 100, m at next level, right associativity).
Notation "m ;; k" := (bind m (fun _ => k))
  (at level 100, right associativity).

Definition raise {A} (e : @exn Statement) : M A := fun w => (Raise e, w, []).

Definition emit (e : @event Statement) : M unit := fun w => (Ret tt, w, [e]).

Definition get {A} (f : @World Statement Lrs -> A) : M A :=
  fun w => (Ret (f w), w, []).

Definition modify (f : @World Statement Lrs -> @World Statement Lrs) : M unit :=
  fun w => (Ret tt, f w, []).

(** [try: body except ...: handler]: [handler e] is [None] when no clause
    matches [e], which then propagates. *)
Definition try_except {A} (body : M A)
    (handler : @exn Statement -> option (M A)) : M A :=
  fun w =>
    match body w with
    | (Raise e, w1, t1) =>
        match handler e with
        | Some h => after t1 (h w1)
        | None => (Raise e, w1, t1)
        end
    | r => r
    end.

(** Reading a local variable: unbound until its first assignment. *)
Definition load_local {A} (v : option A) : M A :=
  match v with
  | Some a => ret a
  | None => raise UnboundLocalError
  end.

(** *** World updates *)

Definition set_cache (c : list Statement) (w : @World Statement Lrs) :=
  {| cache := c; cache_lock := cache_lock w; publish_timer := publish_timer w;
     publish_retries := publish_retries w;
     total_published_successfully := total_published_successfully w;
     raceBuffer := raceBuffer w; timers := timers w; lrs := lrs w |}.

Definition set_cache_lock (b : bool) (w : @World Statement Lrs) :=
  {| cache := cache w; cache_lock := b; publish_timer := publish_timer w;
     publish_retries := publish_retries w;
     total_published_successfully := total_published_successfully w;
     raceBuffer := raceBuffer w; timers := timers w; lrs := lrs w |}.

Definition set_publish_timer (h : option nat) (w : @World Statement Lrs) :=
  {| cache := cache w; cache_lock := cache_lock w; publish_timer := h;
     publish_retries := publish_retries w;
     total_published_successfully := total_published_successfully w;
     raceBuffer := raceBuffer w; timers := timers w; lrs := lrs w |}.

Definition set_publish_retries (n : Z) (w : @World Statement Lrs) :=
  {| cache := cache w; cache_lock := cache_lock w;
     publish_timer := publish_timer w; publish_retries := n;
     total_published_successfully := total_published_successfully w;
     raceBuffer := raceBuffer w; timers := timers w; lrs := lrs w |}.

Definition set_total_published_successfully (n : Z)
    (w : @World Statement Lrs) :=
  {| cache := cache w; cache_lock := cache_lock w;
     publish_timer := publish_timer w; publish_retries := publish_retries w;
     total_published_successfully := n;
     raceBuffer := raceBuffer w; timers := timers w; lrs := lrs w |}.

Definition set_raceBuffer (s : string) (w : @World Statement Lrs) :=
  {| cache := cache w; cache_lock := cache_lock w;
     publish_timer := publish_timer w; publish_retries := publish_retries w;
     total_published_successfully := total_published_successfully w;
     raceBuffer := s; timers := timers w; lrs := lrs w |}.

Definition set_timers (ts : list timer_state) (w : @World Statement Lrs) :=
  {| cache := cache w; cache_lock := cache_lock w;
     publish_timer := publish_timer w; publish_retries := publish_retries w;
     total_published_successfully := total_published_successfully w;
     raceBuffer := raceBuffer w; timers := ts; lrs := lrs w |}.

Definition set_lrs (l : Lrs) (w : @World Statement Lrs) :=
  {| cache := cache w; cache_lock := cache_lock w;
     publish_timer := publish_timer w; publish_retries := publish_retries w;
     total_published_successfully := total_published_successfully w;
     raceBuffer := raceBuffer w; timers := timers w; lrs := l |}.

(** *** converter.py *)

(** [evt[key]] *)
Definition getitem (evt : json) (key : string) : M json :=
  match evt with
  | JObj d =>
      match d !! key with
      | Some v => ret v
      | None => raise KeyError
      end
  | _ => raise TypeError
  end.

(** [v.replace(old, new)]: only strings have the method. *)
Definition call_replace (v : json) (old new : string) : M string :=
  match v with
  | JStr s => ret (str_replace s old new)
  | _ => raise AttributeError
  end.

(** [statement_class(evt)] *)
Definition call_constructor (c : statement_class) (evt : json) : M Statement :=
  match construct c evt with
  | inl statement => ret statement
  | inr e => raise e
  end.

(** [to_xapi(evt)]: [None] for Python's [None], [Some l] for a tuple.  The
    local [statement] is assigned only when the constructor returns, so the
    handler of the malformed-statement exception reads it unbound. *)
Definition to_xapi (evt : json) : M (option (list Statement)) :=
  v <- getitem evt "event_type" ;;
  event_type <- call_replace v "xblock-video." "" ;;
  if bool_decide (event_type ∈ IGNORED_EVENT_TYPES settings) then ret None
  else
    match TRACKING_EVENTS_TO_XAPI_STATEMENT_MAP !! event_type with
    | None => ret None
    | Some statement_class =>
        try_except
          (statement <- call_constructor statement_class evt ;;
           if hasattr_version statement then ret (Some [statement])
           else ret None)
          (fun e =>
             match e with
             | XAPIMalformedStatementError =>
                 Some (statement <- load_local (None : option Statement) ;;
                       emit (EvLog (RefusingToSend statement)) ;;
                       ret None)
             | _ => None
             end)
    end.

(** *** __main__.py: [QueueManager] *)

(** An access to a field of the queue, recorded in the trace. *)
Definition read_field {A} (f : field) (proj : @World Statement Lrs -> A) : M A :=
  emit (EvTouch f) ;; get proj.

Definition write_field (f : field)
    (upd : @World Statement Lrs -> @World Statement Lrs) : M unit :=
  emit (EvTouch f) ;; modify upd.

(** [with self.cache_lock: body].  The lock is a [threading.Lock]: taking
    it while it is held blocks for ever; it is released when the body
    returns or raises. *)
Definition with_cache_lock {A} (body : M A) : M A :=
  fun w =>
    if cache_lock w then (Deadlock, w, [])
    else
      match body (set_cache_lock true w) with
      | (Ret a, w1, t) =>
          (Ret a, set_cache_lock false w1, EvAcquire :: t ++ [EvRelease])
      | (Raise e, w1, t) =>
          (Raise e, set_cache_lock false w1, EvAcquire :: t ++ [EvRelease])
      | (o, w1, t) => (o, w1, EvAcquire :: t)
      end.

(** Modelled from the spec: [err_fail] of the exception classes, whose
    module is not under src/; section 4.4 has it "treat as fatal - report
    and abort the process". *)
Definition err_fail : M unit :=
  emit (EvLog CannotContinue) ;; raise SystemExit.

(** Modelled from the spec: [err_continue_msg] of the exception classes,
    whose module is not under src/; section 4.4 has it "log a non-fatal
    warning". *)
Definition err_continue_msg (m : @log_msg Statement) : M unit :=
  emit (EvLog m).

(** [statements.remove(x)]: drops the first element equal to [x]; [None]
    stands for the [ValueError] of an absent [x]. *)
Fixpoint list_remove (x : Statement) (l : list Statement)
    : option (list Statement) :=
  match l with
  | [] => None
  | y :: l' =>
      if decide (y = x) then Some l'
      else match list_remove x l' with
           | Some r => Some (y :: r)
           | None => None
           end
  end.

Definition call_remove (x : Statement) (l : list Statement)
    : M (list Statement) :=
  match list_remove x l with
  | Some r => ret r
  | None => raise ValueError
  end.

(** [client.lrs_publisher.publish_statements(statements)] *)
Definition call_publish_statements (statements : list Statement) : M unit :=
  fun w =>
    match publish_statements (lrs w) statements with
    | (None, l') => (Ret tt, set_lrs l' w, [EvNet statements])
    | (Some e, l') => (Raise e, set_lrs l' w, [EvNet statements])
    end.

(** [self.publish_timer = threading.Timer(...); self.publish_timer.start()] *)
Definition start_publish_timer : M unit :=
  ts <- get timers ;;
  write_field FTimer
    (fun w => set_publish_timer (Some (length ts)) (set_timers (ts ++ [Armed]) w)) ;;
  emit (EvTimerStart (length ts)).

(** [if self.publish_timer is not None: self.publish_timer.cancel()] *)
Definition cancel_publish_timer : M unit :=
  t <- read_field FTimer publish_timer ;;
  match t with
  | None => ret tt
  | Some h =>
      modify (fun w => set_timers (<[h := Cancelled]> (timers w)) w) ;;
      emit (EvTimerCancel h)
  end.

(** How one pass through the body of the [while] loop ends. *)
Inductive loop_ctl :=
  | LoopSuccess
  | LoopBreak
  | LoopAgain (statements : list Statement).

(** The lines of the [try] block after the network call returned. *)
Definition published (statements : list Statement) : M unit :=
  write_field FRetries (set_publish_retries 0) ;;
  write_field FTotal
    (fun w => set_total_published_successfully
                (total_published_successfully w + Z.of_nat (length statements)) w) ;;
  total <- read_field FTotal total_published_successfully ;;
  emit (EvLog (PublishedSuccessfully total)) ;;
  match TEST_LOAD_SUCCESSFUL_STATEMENTS_BENCHMARK settings with
  | Some benchmark =>
      if bool_decide (0 < benchmark) then
        total' <- read_field FTotal total_published_successfully ;;
        if bool_decide (benchmark <= total')
        then emit (EvLog (BenchmarkReached benchmark))
        else ret tt
      else ret tt
  | None => ret tt
  end.

(** One pass through the body of the [while] loop of [publish]. *)
Definition publish_attempt (statements : list Statement) : M loop_ctl :=
  try_except
    (call_publish_statements statements ;;
     published statements ;;
     ret LoopSuccess)
    (fun e =>
       match e with
       | XAPIBridgeLRSConnectionError =>
           Some (r <- read_field FRetries publish_retries ;;
                 if bool_decide (r <= PUBLISH_MAX_RETRIES settings) then
                   write_field FRetries
                     (fun w => set_publish_retries (publish_retries w + 1) w) ;;
                   ret (LoopAgain statements)
                 else
                   err_fail ;;
                   ret LoopBreak)
       | XAPIBridgeStatementStorageError statement =>
           Some (err_continue_msg (RejectedStatement statement) ;;
                 statements' <- call_remove statement statements ;;
                 ret (LoopAgain statements'))
       | _ => None
       end).

(** [while lrs_success is False and len(statements) > 0: ...], returning
    [lrs_success]. *)
Fixpoint publish_loop (fuel : nat) (statements : list Statement) : M bool :=
  match statements with
  | [] => ret false
  | _ :: _ =>
      match fuel with
      | O => fun w => (OutOfFuel, w, [])
      | S fuel' =>
          c <- publish_attempt statements ;;
          match c with
          | LoopSuccess => ret true
          | LoopBreak => ret false
          | LoopAgain statements' => publish_loop fuel' statements'
          end
      end
  end.

(** A bound on the passes of the loop: every pass but the last either
    drops a statement or counts a retry. *)
Definition loop_bound (statements : list Statement) (retries : Z) : nat :=
  S (length statements + Z.to_nat (PUBLISH_MAX_RETRIES settings - retries + 1)).

(** [QueueManager.publish]; [StatementList(self.cache)] copies the batch. *)
Definition publish : M unit :=
  with_cache_lock
    (statements <- read_field FCache cache ;;
     retries <- get publish_retries ;;
     publish_loop (loop_bound statements retries) statements ;;
     write_field FCache (set_cache []) ;;
     cancel_publish_timer).

(** [QueueManager.push] *)
Definition push (stmt : Statement) : M unit :=
  with_cache_lock
    (write_field FCache (fun w => set_cache (cache w ++ [stmt]) w)) ;;
  n <- read_field FCache (fun w => length (cache w)) ;;
  (if bool_decide (n = 1%nat) && bool_decide (0 < PUBLISH_MAX_WAIT_TIME settings)
   then start_publish_timer
   else ret tt) ;;
  n' <- read_field FCache (fun w => length (cache w)) ;;
  if bool_decide (PUBLISH_MAX_PAYLOAD settings <= Z.of_nat n')
  then publish
  else ret tt.

(** *** __main__.py: [TailHandler] *)

(** [for x in l: f(x)] *)
Fixpoint for_each {A} (f : A -> M unit) (l : list A) : M unit :=
  match l with
  | [] => ret tt
  | x :: l' => f x ;; for_each f l'
  end.

(** The body of the loop over the lines of one read. *)
Definition process_line (e : string) : M unit :=
  match json_loads e with
  | None => emit (EvLog (CouldNotParseJSON e))
  | Some evt_obj =>
      xapi <- try_except
                (emit (EvConvert evt_obj) ;; to_xapi evt_obj)
                (fun ex =>
                   match ex with
                   | XAPIBridgeStatementConversionError =>
                       Some (err_continue_msg ConversionFailed ;; ret None)
                   | _ => None
                   end) ;;
      match xapi with
      | None => ret tt
      | Some l => for_each push l
      end
  end.

(** The non-empty lines of a buffer:
    [[i for i in buff.split('\n') if len(i) != 0]] *)
Definition lines_of (buff : string) : list string :=
  filter (fun i => String.length i ≠ 0%nat) (str_split newline buff).

(** [TailHandler.process_IN_MODIFY], [new] being what [self.ifp.read()]
    returns. *)
Definition process_IN_MODIFY (new : string) : M unit :=
  rb <- get raceBuffer ;;
  let buff := rb +:+ new in
  if bool_decide (String.length buff ≠ 0%nat)
     && bool_decide (last_char buff ≠ Some newline)
  then modify (set_raceBuffer buff)
  else
    modify (set_raceBuffer EmptyString) ;;
    for_each process_line (lines_of buff).

(** *** Notions the properties are stated with *)

(** Every event a computation emits, from whatever state, satisfies [P]. *)
Definition emits {A} (P : @event Statement -> Prop) (m : M A) : Prop :=
  ∀ w, Forall P (m w).2.

(** The events of the retry loop: field accesses, network calls, log
    lines. *)
Definition loop_event (e : @event Statement) : Prop :=
  match e with
  | EvTouch _ | EvNet _ | EvLog _ => True
  | _ => False
  end.

(** The events of the queue: everything but the dispatch of a record. *)
Definition queue_event (e : @event Statement) : Prop :=
  match e with
  | EvConvert _ => False
  | _ => True
  end.

(** The timers once the one [publish_timer] refers to is cancelled. *)
Definition cancelled_timers (w : @World Statement Lrs) : list timer_state :=
  match publish_timer w with
  | Some h => <[h := Cancelled]> (timers w)
  | None => timers w
  end.

(** The state once [push] has appended [stmt] and released the lock. *)
Definition appended (stmt : Statement) (w : @World Statement Lrs)
    : @World Statement Lrs :=
  set_cache_lock false (set_cache (cache w ++ [stmt]) (set_cache_lock true w)).

(** The timer-arming step of [push]: the state after it and what it
    emits. *)
Definition arm_timer (w : @World Statement Lrs)
    : @World Statement Lrs * list (@event Statement) :=
  if bool_decide (length (cache w) = 1%nat)
     && bool_decide (0 < PUBLISH_MAX_WAIT_TIME settings)
  then (set_publish_timer (Some (length (timers w)))
          (set_timers (timers w ++ [Armed]) w),
        [EvTouch FTimer; EvTimerStart (length (timers w))])
  else (w, []).

(** The only timer that can be armed is the one [publish_timer] refers
    to, and then the batch is not empty: what holds of a queue that is
    used from one thread. *)
Definition timers_tracked (w : @World Statement Lrs) : Prop :=
  ∀ h, timers w !! h = Some Armed -> publish_timer w = Some h ∧ cache w ≠ [].

(** The trailing partial segment of a buffer: what follows its last line
    terminator. *)
Definition trailing_segment (buff : string) : string :=
  default EmptyString (last (str_split newline buff)).

(** A store that answers [k] calls for [statements] with a
    connection-class error and the next one with success. *)
Fixpoint fails_then_accepts (k : nat) (store : Lrs)
    (statements : list Statement) : Prop :=
  match k with
  | O => (publish_statements store statements).1 = None
  | S k' =>
      (publish_statements store statements).1 = Some XAPIBridgeLRSConnectionError
      ∧ fails_then_accepts k' (publish_statements store statements).2 statements
  end.

(** The events other than the start of a timer. *)
Definition not_timer_start (e : @event Statement) : Prop :=
  match e with
  | EvTimerStart _ => False
  | _ => True
  end.

(** A computation that leaves a component of the state as it found
    it, however it ends. *)
Definition keeps {A B} (proj : @World Statement Lrs -> B) (m : M A) : Prop :=
  ∀ w, proj (m w).1.2 = proj w.

(** [QueueManager.destroy] ([__del__] calls it too). *)
Definition destroy : M unit := cancel_publish_timer.

(** [TailHandler.__exit__]: the queue is flushed and destroyed; closing
    the file changes nothing of what is modelled. *)
Definition __exit__ : M unit :=
  publish ;;
  destroy.

(** The statements [to_xapi] returns for the record of a line; none when
    the line does not decode, or [to_xapi] returns [None] or raises. *)
Definition converted (w : @World Statement Lrs) (e : string) : list Statement :=
  match json_loads e with
  | Some evt_obj =>
      match (to_xapi evt_obj w).1.1 with
      | Ret (Some l) => l
      | _ => []
      end
  | None => []
  end.

(** A line the loop of [process_IN_MODIFY] gets past: it does not
    decode, or [to_xapi] returns for its record, or raises the one
    exception the loop catches. *)
Definition convertible (w : @World Statement Lrs) (e : string) : Prop :=
  match json_loads e with
  | Some evt_obj =>
      match (to_xapi evt_obj w).1.1 with
      | Ret _ => True
      | Raise XAPIBridgeStatementConversionError => True
      | _ => False
      end
  | None => True
  end.

(** ** Properties *)

(** *** Python strings *)

Lemma prefix_append (p s : string) : String.prefix p (p +:+ s) = true.
Proof.
  induction p as [|c p IH]; simpl.
  - by destruct s.
  - destruct (ascii_dec c c); [exact IH | done].
Qed.

Lemma replace_from_skip (old new t s : string) :
  replace_from old new (String.length t) (t +:+ s) = replace_from old new 0 s.
Proof.
  induction t as [|c t IH]; simpl; [|exact IH].
  by destruct s.
Qed.

(** A leading occurrence of [old] is the first one replaced, and the scan
    goes on behind it. *)
Lemma str_replace_prefix (old new s : string) :
  old ≠ EmptyString ->
  str_replace (old +:+ s) old new = new +:+ str_replace s old new.
Proof.
  destruct old as [|c old]; [done | intros _].
  unfold str_replace.
  change (String c old +:+ s) with (String c (old +:+ s)).
  cbn [replace_from].
  change (String c (old +:+ s)) with (String c old +:+ s).
  rewrite prefix_append.
  cbn [String.length]. rewrite Nat.sub_1_r. cbn [Nat.pred].
  by rewrite replace_from_skip.
Qed.

(** *** The monad *)

Lemma after_nil {A}
    (r : @outcome Statement A * @World Statement Lrs * list (@event Statement)) :
  after [] r = r.
Proof. by destruct r as [[? ?] ?]. Qed.

Lemma after_after {A} (t1 t2 : list (@event Statement))
    (r : @outcome Statement A * @World Statement Lrs * list (@event Statement)) :
  after t1 (after t2 r) = after (t1 ++ t2) r.
Proof. destruct r as [[? ?] ?]. cbn. by rewrite app_assoc. Qed.

Lemma bind_ret {A B} (a : A) (f : A -> M B) (w : @World Statement Lrs) :
  bind (ret a) f w = f a w.
Proof. unfold bind, ret. apply after_nil. Qed.

Lemma bind_raise {A B} (e : @exn Statement) (f : A -> M B)
    (w : @World Statement Lrs) :
  bind (raise e) f w = (Raise e, w, []).
Proof. done. Qed.

Lemma bind_get {A B} (proj : @World Statement Lrs -> A) (f : A -> M B)
    (w : @World Statement Lrs) :
  bind (get proj) f w = f (proj w) w.
Proof. unfold bind, get. apply after_nil. Qed.

Lemma bind_modify {B} (upd : @World Statement Lrs -> @World Statement Lrs)
    (f : unit -> M B) (w : @World Statement Lrs) :
  bind (modify upd) f w = f tt (upd w).
Proof. unfold bind, modify. apply after_nil. Qed.

Lemma bind_emit {B} (e : @event Statement) (f : unit -> M B)
    (w : @World Statement Lrs) :
  bind (emit e) f w = after [e] (f tt w).
Proof. done. Qed.

Lemma bind_assoc {A B C} (m : M A) (f : A -> M B) (g : B -> M C)
    (w : @World Statement Lrs) :
  bind (bind m f) g w = bind m (fun a => bind (f a) g) w.
Proof.
  unfold bind. destruct (m w) as [[[a| | |] w1] t1]; try done.
  destruct (f a w1) as [[[b| | |] w2] t2]; try done.
  cbn. by rewrite after_after.
Qed.

Lemma bind_read_field {A B} (fld : field) (proj : @World Statement Lrs -> A)
    (f : A -> M B) (w : @World Statement Lrs) :
  bind (read_field fld proj) f w = after [EvTouch fld] (f (proj w) w).
Proof.
  unfold read_field. rewrite bind_assoc, bind_emit. f_equal. apply bind_get.
Qed.

Lemma bind_write_field {B} (fld : field)
    (upd : @World Statement Lrs -> @World Statement Lrs)
    (f : unit -> M B) (w : @World Statement Lrs) :
  bind (write_field fld upd) f w = after [EvTouch fld] (f tt (upd w)).
Proof.
  unfold write_field. rewrite bind_assoc, bind_emit. f_equal. apply bind_modify.
Qed.

(** *** What a computation emits *)

Lemma emits_ret {A} P (a : A) : emits P (ret a).
Proof. intros w. apply Forall_nil_2. Qed.

Lemma emits_raise {A} P e : emits P (raise (A:=A) e).
Proof. intros w. apply Forall_nil_2. Qed.

Lemma emits_get {A} P (proj : @World Statement Lrs -> A) : emits P (get proj).
Proof. intros w. apply Forall_nil_2. Qed.

Lemma emits_modify P upd : emits P (modify upd).
Proof. intros w. apply Forall_nil_2. Qed.

Lemma emits_emit (P : @event Statement -> Prop) e : P e -> emits P (emit e).
Proof. intros He w. by apply Forall_singleton. Qed.

Lemma emits_bind {A B} P (m : M A) (f : A -> M B) :
  emits P m -> (∀ a, emits P (f a)) -> emits P (bind m f).
Proof.
  intros Hm Hf w. unfold bind. specialize (Hm w).
  destruct (m w) as [[[a| | |] w1] t1]; try done.
  specialize (Hf a w1). destruct (f a w1) as [[o w2] t2].
  by apply Forall_app.
Qed.

Lemma emits_try_except {A} P (body : M A) handler :
  emits P body ->
  (∀ e h, handler e = Some h -> emits P h) ->
  emits P (try_except body handler).
Proof.
  intros Hb Hh w. unfold try_except. specialize (Hb w).
  destruct (body w) as [[[a|e| |] w1] t1]; try done.
  destruct (handler e) as [h|] eqn:He; [|done].
  specialize (Hh e h He w1). destruct (h w1) as [[o w2] t2].
  by apply Forall_app.
Qed.

Lemma emits_with_cache_lock {A} (P : @event Statement -> Prop) (body : M A) :
  P EvAcquire -> P EvRelease -> emits P body -> emits P (with_cache_lock body).
Proof.
  intros Ha Hr Hb w. unfold with_cache_lock.
  destruct (cache_lock w); [apply Forall_nil_2|].
  specialize (Hb (set_cache_lock true w)).
  destruct (body _) as [[[a|e| |] w1] t1]; cbn in *;
    repeat first [apply Forall_cons_2 | apply Forall_app_2
                 | apply Forall_nil_2 | assumption].
Qed.

Lemma emits_for_each {A} P (f : A -> M unit) (l : list A) :
  (∀ a, emits P (f a)) -> emits P (for_each f l).
Proof.
  intros Hf. induction l as [|x l IH]; cbn.
  - apply emits_ret.
  - apply emits_bind; [apply Hf | intros _; exact IH].
Qed.

Lemma emits_read_field {A} (P : @event Statement -> Prop) fld
    (proj : @World Statement Lrs -> A) :
  P (EvTouch fld) -> emits P (read_field fld proj).
Proof.
  intros. apply emits_bind; [by apply emits_emit | intros; apply emits_get].
Qed.

Lemma emits_write_field (P : @event Statement -> Prop) fld upd :
  P (EvTouch fld) -> emits P (write_field fld upd).
Proof.
  intros. apply emits_bind; [by apply emits_emit | intros; apply emits_modify].
Qed.

(** *** Converter dispatch *)

Arguments str_replace : simpl never.
Arguments TRACKING_EVENTS_TO_XAPI_STATEMENT_MAP : simpl never.

(** [to_xapi] on a record whose [event_type] is the string [raw]: what is
    left once the lookup and the prefix stripping are done. *)
Lemma to_xapi_event_type (d : gmap string json) (raw : string)
    (w : @World Statement Lrs) :
  d !! "event_type" = Some (JStr raw) ->
  to_xapi (JObj d) w =
    (if bool_decide (str_replace raw "xblock-video." "" ∈ IGNORED_EVENT_TYPES settings)
     then ret None
     else
       match TRACKING_EVENTS_TO_XAPI_STATEMENT_MAP !! str_replace raw "xblock-video." "" with
       | None => ret None
       | Some statement_class =>
           try_except
             (statement <- call_constructor statement_class (JObj d) ;;
              if hasattr_version statement then ret (Some [statement])
              else ret None)
             (fun e =>
                match e with
                | XAPIMalformedStatementError =>
                    Some (statement <- load_local (None : option Statement) ;;
                          emit (EvLog (RefusingToSend statement)) ;;
                          ret None)
                | _ => None
                end)
       end) w.
Proof.
  intros Hd. unfold to_xapi, getitem. rewrite Hd, bind_ret.
  unfold call_replace. by rewrite bind_ret.
Qed.

(** X22.  A record whose event type, with the wrapper string removed by
    [str.replace], is in the ignore-list or has no registered constructor
    yields nothing: [to_xapi] returns [None], raises nothing, logs nothing
    and leaves the state alone.  The spelling with the wrapper prefix and
    the one without select the same entry of the table, and [to_xapi]
    treats two records that differ in nothing else the constructors look
    at alike. *)
Theorem to_xapi_ignored_or_unknown (d : gmap string json) (raw : string)
    (w : @World Statement Lrs) :
  d !! "event_type" = Some (JStr raw) ->
  (str_replace raw "xblock-video." "" ∈ IGNORED_EVENT_TYPES settings
   ∨ TRACKING_EVENTS_TO_XAPI_STATEMENT_MAP !! str_replace raw "xblock-video." "" = None ->
   to_xapi (JObj d) w = (Ret None, w, []))
  ∧ TRACKING_EVENTS_TO_XAPI_STATEMENT_MAP !! str_replace ("xblock-video." +:+ raw) "xblock-video." ""
    = TRACKING_EVENTS_TO_XAPI_STATEMENT_MAP !! str_replace raw "xblock-video." ""
  ∧ (∀ d' : gmap string json,
       d' !! "event_type" = Some (JStr ("xblock-video." +:+ raw)) ->
       (∀ c, construct c (JObj d') = construct c (JObj d)) ->
       to_xapi (JObj d') w = to_xapi (JObj d) w).
Proof.
  intros Hd.
  assert (Hstrip : str_replace ("xblock-video." +:+ raw) "xblock-video." ""
                   = str_replace raw "xblock-video." "").
  { by rewrite str_replace_prefix. }
  split; [|split].
  - intros Hskip. rewrite (to_xapi_event_type d raw w Hd).
    destruct Hskip as [Hign | Hunk].
    + by rewrite bool_decide_eq_true_2.
    + rewrite Hunk. by destruct (bool_decide _).
  - by rewrite Hstrip.
  - intros d' Hd' Hsame.
    rewrite (to_xapi_event_type d' _ w Hd'), (to_xapi_event_type d raw w Hd).
    rewrite Hstrip.
    destruct (bool_decide _); [done|].
    destruct (TRACKING_EVENTS_TO_XAPI_STATEMENT_MAP !! _) as [c|]; [|done].
    unfold try_except, bind, call_constructor. by rewrite Hsame.
Qed.

(** C10.  Whatever the record and the state, a value [to_xapi] returns
    is [None] or a tuple of exactly one statement, never two or more: the
    statement the registered constructor built from this record, which has
    a [version] attribute.  And when the object the constructor built has
    no [version] attribute, [to_xapi] returns [None] without logging or
    raising. *)
Theorem to_xapi_at_most_one_statement :
  (∀ (evt : json) (w : @World Statement Lrs),
     match to_xapi evt w with
     | (Ret (Some l), _, _) =>
         ∃ (c : statement_class) (s : Statement),
           construct c evt = inl s ∧ hasattr_version s = true ∧ l = [s]
     | _ => True
     end)
  ∧ (∀ (d : gmap string json) (raw : string) (c : statement_class)
       (statement : Statement) (w : @World Statement Lrs),
       d !! "event_type" = Some (JStr raw) ->
       TRACKING_EVENTS_TO_XAPI_STATEMENT_MAP !! str_replace raw "xblock-video." "" = Some c ->
       construct c (JObj d) = inl statement ->
       hasattr_version statement = false ->
       to_xapi (JObj d) w = (Ret None, w, [])).
Proof.
  split.
  - intros evt w.
    destruct evt as [| | | |l|d]; try done.
    unfold to_xapi, bind, getitem.
    destruct (d !! "event_type") as [v|]; [|done]. cbn.
    destruct v; try done. cbn.
    destruct (bool_decide _); [done|].
    destruct (TRACKING_EVENTS_TO_XAPI_STATEMENT_MAP !! _) as [c|]; [|done].
    unfold try_except, bind, call_constructor.
    destruct (construct c _) as [st|e] eqn:Hbuilt; cbn.
    + destruct (hasattr_version st) eqn:Hver; cbn; [|done].
      by exists c, st.
    + by destruct e.
  - intros d raw c statement w Hd Hc Hbuilt Hver.
    rewrite (to_xapi_event_type d raw w Hd), Hc.
    destruct (bool_decide _); [done|].
    unfold try_except, bind, call_constructor. rewrite Hbuilt. cbn.
    by rewrite Hver.
Qed.

(** C2, as the code has it.  When the registered constructor raises the
    malformed-statement exception, the handler reads the local
    [statement], which the failed call never bound: [to_xapi] raises
    [UnboundLocalError] to its caller and nothing is logged. *)
Theorem to_xapi_malformed_statement_escapes (d : gmap string json)
    (raw : string) (c : statement_class) (w : @World Statement Lrs) :
  d !! "event_type" = Some (JStr raw) ->
  str_replace raw "xblock-video." "" ∉ IGNORED_EVENT_TYPES settings ->
  TRACKING_EVENTS_TO_XAPI_STATEMENT_MAP !! str_replace raw "xblock-video." "" = Some c ->
  construct c (JObj d) = inr XAPIMalformedStatementError ->
  to_xapi (JObj d) w = (Raise UnboundLocalError, w, []).
Proof.
  intros Hd Hign Hc Hbad.
  rewrite (to_xapi_event_type d raw w Hd), Hc.
  rewrite bool_decide_eq_false_2 by done.
  unfold try_except, bind, call_constructor. by rewrite Hbad.
Qed.

(** *** The publish queue: what it emits *)

Ltac emits_step :=
  lazymatch goal with
  | |- emits _ (bind _ _) => apply emits_bind; [|intros ?]
  | |- emits _ (ret _) => apply emits_ret
  | |- emits _ (raise _) => apply emits_raise
  | |- emits _ (emit _) => apply emits_emit; exact I
  | |- emits _ (get _) => apply emits_get
  | |- emits _ (modify _) => apply emits_modify
  | |- emits _ (read_field _ _) => apply emits_read_field; exact I
  | |- emits _ (write_field _ _) => apply emits_write_field; exact I
  | |- emits _ (with_cache_lock _) =>
      apply emits_with_cache_lock; [exact I | exact I |]
  | |- emits _ (if ?c then _ else _) => destruct c
  | |- emits _ (match ?x with _ => _ end) => destruct x
  end.

Lemma emits_weaken {A} (P Q : @event Statement -> Prop) (m : M A) :
  (∀ e, P e -> Q e) -> emits P m -> emits Q m.
Proof. intros HPQ Hm w. eapply Forall_impl; [apply Hm | exact HPQ]. Qed.

Lemma emits_call_publish_statements statements :
  emits loop_event (call_publish_statements statements).
Proof.
  intros w. unfold call_publish_statements.
  destruct (publish_statements _ _) as [[e|] l']; by apply Forall_singleton.
Qed.

Lemma emits_publish_attempt statements :
  emits loop_event (publish_attempt statements).
Proof.
  unfold publish_attempt. apply emits_try_except.
  - apply emits_bind; [apply emits_call_publish_statements | intros _].
    unfold published. repeat emits_step.
  - intros e h He. destruct e; try done; injection He as <-.
    + unfold err_fail. repeat emits_step.
    + unfold err_continue_msg, call_remove. repeat emits_step.
Qed.

Lemma emits_publish_loop fuel statements :
  emits loop_event (publish_loop fuel statements).
Proof.
  revert statements. induction fuel as [|fuel IH]; intros [|s l]; cbn;
    try apply emits_ret.
  - intros w. apply Forall_nil_2.
  - apply emits_bind; [apply emits_publish_attempt | intros c].
    destruct c; [apply emits_ret | apply emits_ret | apply IH].
Qed.

Lemma emits_publish : emits queue_event publish.
Proof.
  unfold publish, cancel_publish_timer. repeat emits_step.
  all: eapply emits_weaken; [|apply emits_publish_loop].
  all: by intros [].
Qed.

Lemma emits_push stmt : emits queue_event (push stmt).
Proof.
  unfold push, start_publish_timer. repeat emits_step.
  all: apply emits_publish.
Qed.

(** Nothing the queue does hands a record to the converter. *)
Lemma dispatched_queue_events (t : list (@event Statement)) :
  Forall queue_event t -> dispatched t = [].
Proof.
  induction 1 as [|e t He _ IH]; [done|].
  unfold dispatched in *. destruct e; cbn; done.
Qed.

(** The events of the loop leave the lock as they found it. *)
Lemma locked_accesses_loop_events (t t' : list (@event Statement)) :
  Forall loop_event t ->
  locked_accesses true (t ++ t') = locked_accesses true t'.
Proof.
  induction 1 as [|e t He _ IH]; [done|].
  destruct e; cbn; done.
Qed.

(** *** The publish queue: one pass of the loop *)

Lemma after_outcome {A} (t : list (@event Statement))
    (r : @outcome Statement A * @World Statement Lrs * list (@event Statement)) :
  (after t r).1.1 = r.1.1.
Proof. by destruct r as [[? ?] ?]. Qed.

Lemma net_calls_app (t1 t2 : list (@event Statement)) :
  net_calls (t1 ++ t2) = net_calls t1 ++ net_calls t2.
Proof. apply omap_app. Qed.

Lemma net_calls_cons (e : @event Statement) (t : list (@event Statement)) :
  net_calls (e :: t) =
    match e with
    | EvNet l => l :: net_calls t
    | _ => net_calls t
    end.
Proof. by destruct e. Qed.

Lemma net_calls_nil : net_calls ([] : list (@event Statement)) = [].
Proof. done. Qed.

Lemma log_of_app (t1 t2 : list (@event Statement)) :
  log_of (t1 ++ t2) = log_of t1 ++ log_of t2.
Proof. apply omap_app. Qed.

Lemma log_of_cons (e : @event Statement) (t : list (@event Statement)) :
  log_of (e :: t) =
    match e with
    | EvLog m => m :: log_of t
    | _ => log_of t
    end.
Proof. by destruct e. Qed.

Lemma log_of_nil : log_of ([] : list (@event Statement)) = [].
Proof. done. Qed.

Lemma dispatched_app (t1 t2 : list (@event Statement)) :
  dispatched (t1 ++ t2) = dispatched t1 ++ dispatched t2.
Proof. apply omap_app. Qed.

Lemma dispatched_cons (e : @event Statement) (t : list (@event Statement)) :
  dispatched (e :: t) =
    match e with
    | EvConvert j => j :: dispatched t
    | _ => dispatched t
    end.
Proof. by destruct e. Qed.

Lemma dispatched_nil : dispatched ([] : list (@event Statement)) = [].
Proof. done. Qed.

Create Rewrite HintDb trace.

Hint Rewrite net_calls_app net_calls_cons net_calls_nil
  log_of_app log_of_cons log_of_nil
  dispatched_app dispatched_cons dispatched_nil : trace.

Arguments net_calls : simpl never.
Arguments log_of : simpl never.
Arguments dispatched : simpl never.

(** Normalise the projections of a trace. *)
Ltac trace_simpl := cbn; autorewrite with trace; cbn.

(** The success path: the counters are updated, the running total is
    logged, no further network call is made. *)
Lemma published_spec statements (w : @World Statement Lrs) :
  ∃ t,
    published statements w =
      (Ret tt,
       set_total_published_successfully
         (total_published_successfully w + Z.of_nat (length statements))
         (set_publish_retries 0 w),
       t)
    ∧ net_calls t = []
    ∧ PublishedSuccessfully
        (total_published_successfully w + Z.of_nat (length statements))
      ∈ log_of t.
Proof.
  unfold published.
  rewrite bind_write_field, bind_write_field, bind_read_field, bind_emit.
  destruct (TEST_LOAD_SUCCESSFUL_STATEMENTS_BENCHMARK settings) as [b|].
  - destruct (bool_decide (0 < b)).
    + rewrite bind_read_field. cbn.
      destruct (bool_decide _); cbn; eexists; (split; [reflexivity|]);
        (split; [done | cbn; apply list_elem_of_here]).
    + cbn. eexists. split; [reflexivity|].
      split; [done | cbn; apply list_elem_of_here].
  - cbn. eexists. split; [reflexivity|].
    split; [done | cbn; apply list_elem_of_here].
Qed.

(** One pass of the loop, by the answer of the store. *)
Lemma publish_attempt_unfold statements (w : @World Statement Lrs) :
  publish_attempt statements w =
    match publish_statements (lrs w) statements with
    | (None, l') =>
        (Ret LoopSuccess,
         (published statements (set_lrs l' w)).1.2,
         EvNet statements :: (published statements (set_lrs l' w)).2)
    | (Some XAPIBridgeLRSConnectionError, l') =>
        if bool_decide (publish_retries w <= PUBLISH_MAX_RETRIES settings)
        then (Ret (LoopAgain statements),
              set_publish_retries (publish_retries w + 1) (set_lrs l' w),
              [EvNet statements; EvTouch FRetries; EvTouch FRetries])
        else (Raise SystemExit, set_lrs l' w,
              [EvNet statements; EvTouch FRetries; EvLog CannotContinue])
    | (Some (XAPIBridgeStatementStorageError statement), l') =>
        match list_remove statement statements with
        | Some statements' =>
            (Ret (LoopAgain statements'), set_lrs l' w,
             [EvNet statements; EvLog (RejectedStatement statement)])
        | None =>
            (Raise ValueError, set_lrs l' w,
             [EvNet statements; EvLog (RejectedStatement statement)])
        end
    | (Some e, l') => (Raise e, set_lrs l' w, [EvNet statements])
    end.
Proof.
  unfold publish_attempt, try_except.
  unfold bind at 1. unfold call_publish_statements at 1.
  destruct (publish_statements (lrs w) statements) as [[e|] l'].
  - destruct e; try done.
    + rewrite bind_read_field. cbn.
      destruct (bool_decide _); [|done].
      by rewrite bind_write_field.
    + unfold err_continue_msg. rewrite bind_emit. unfold call_remove.
      destruct (list_remove statement statements); [|done].
      by rewrite bind_ret.
  - destruct (published_spec statements (set_lrs l' w)) as (t & Hp & _).
    unfold bind. rewrite Hp. cbn. by rewrite app_nil_r.
Qed.

Lemma list_remove_length x l r :
  list_remove x l = Some r -> length l = S (length r).
Proof.
  revert r. induction l as [|y l IH]; intros r; cbn; [done|].
  destruct (decide (y = x)); [by intros [= ->]|].
  destruct (list_remove x l) as [r'|]; [|done].
  intros [= <-]. cbn. by rewrite (IH r').
Qed.

(** The first occurrence is the one removed, and the rest keeps its
    order. *)
Lemma list_remove_first x l1 l2 :
  x ∉ l1 -> list_remove x (l1 ++ x :: l2) = Some (l1 ++ l2).
Proof.
  induction l1 as [|y l1 IH]; intros Hx; cbn.
  - by rewrite decide_True.
  - apply not_elem_of_cons in Hx as [Hne Hx].
    rewrite decide_False by done. by rewrite IH.
Qed.

Lemma publish_loop_nil fuel : publish_loop fuel [] = ret false.
Proof. by destruct fuel. Qed.

(** The loop ends: with [loop_bound] passes to spend it never runs out. *)
Lemma publish_loop_terminates fuel statements (w : @World Statement Lrs) :
  (length statements
   + Z.to_nat (PUBLISH_MAX_RETRIES settings - publish_retries w + 1) < fuel)%nat ->
  (publish_loop fuel statements w).1.1 ≠ OutOfFuel
  ∧ (publish_loop fuel statements w).1.1 ≠ Deadlock.
Proof.
  revert statements w. induction fuel as [|fuel IH]; intros statements w Hfuel;
    [lia|].
  destruct statements as [|s l]; [done|].
  cbn [publish_loop]. unfold bind. rewrite publish_attempt_unfold.
  destruct (publish_statements (lrs w) (s :: l)) as [[e|] l'].
  - destruct e; try done.
    + destruct (bool_decide _) eqn:Hr; [|done].
      apply bool_decide_eq_true_1 in Hr.
      rewrite !after_outcome. apply IH. cbn in *. lia.
    + destruct (list_remove statement (s :: l)) as [r|] eqn:Hrm; [|done].
      rewrite !after_outcome. apply IH.
      apply list_remove_length in Hrm. cbn in *. lia.
  - done.
Qed.

(** *** The publish queue: [publish] *)

(** [publish] around its loop: the snapshot before it, the clearing of the
    batch and the cancelling of the timer after it, the lock around all. *)
Lemma publish_unfold (w : @World Statement Lrs) :
  cache_lock w = false ->
  publish w =
    match publish_loop (loop_bound (cache w) (publish_retries w)) (cache w)
            (set_cache_lock true w) with
    | (Ret _, w1, t) =>
        (Ret tt,
         set_cache_lock false (set_timers (cancelled_timers w1) (set_cache [] w1)),
         EvAcquire :: EvTouch FCache
           :: t ++ [EvTouch FCache; EvTouch FTimer]
                ++ match publish_timer w1 with
                   | Some h => [EvTimerCancel h]
                   | None => []
                   end
                ++ [EvRelease])
    | (Raise e, w1, t) =>
        (Raise e, set_cache_lock false w1,
         EvAcquire :: EvTouch FCache :: t ++ [EvRelease])
    | (Deadlock, w1, t) => (Deadlock, w1, EvAcquire :: EvTouch FCache :: t)
    | (OutOfFuel, w1, t) => (OutOfFuel, w1, EvAcquire :: EvTouch FCache :: t)
    end.
Proof.
  intros Hlock. unfold publish, with_cache_lock. rewrite Hlock.
  rewrite bind_read_field, bind_get.
  change (cache (set_cache_lock true w)) with (cache w).
  change (publish_retries (set_cache_lock true w)) with (publish_retries w).
  unfold bind at 1.
  destruct (publish_loop _ _ _) as [[[b|e| |] w1] t]; try done.
  rewrite bind_write_field. unfold cancel_publish_timer.
  rewrite bind_read_field.
  change (publish_timer (set_cache [] w1)) with (publish_timer w1).
  unfold cancelled_timers.
  destruct (publish_timer w1) as [h|]; cbn.
  - by rewrite <- app_assoc.
  - by rewrite <- app_assoc.
Qed.

(** [publish] on an empty batch. *)
Lemma publish_on_empty_cache (w : @World Statement Lrs) :
  cache w = [] -> cache_lock w = false ->
  publish w =
    (Ret tt,
     set_cache_lock false
       (set_timers (cancelled_timers w) (set_cache [] (set_cache_lock true w))),
     [EvAcquire; EvTouch FCache; EvTouch FCache; EvTouch FTimer]
       ++ match publish_timer w with
          | Some h => [EvTimerCancel h]
          | None => []
          end
       ++ [EvRelease]).
Proof.
  intros Hcache Hlock. rewrite (publish_unfold w Hlock), Hcache.
  by rewrite publish_loop_nil.
Qed.

(** [publish] always comes back: it returns or raises, whatever the store
    answers. *)
Lemma publish_terminates (w : @World Statement Lrs) :
  cache_lock w = false ->
  (publish w).1.1 ≠ OutOfFuel ∧ (publish w).1.1 ≠ Deadlock.
Proof.
  intros Hlock. rewrite (publish_unfold w Hlock).
  pose proof (publish_loop_terminates
                (loop_bound (cache w) (publish_retries w)) (cache w)
                (set_cache_lock true w)) as Hloop.
  destruct Hloop as [Hfuel Hdead]; [unfold loop_bound; cbn; lia|].
  by destruct (publish_loop _ _ _) as [[[b|e| |] w1] t].
Qed.

(** The loop leaves the timers alone. *)
Lemma publish_loop_timers fuel statements (w : @World Statement Lrs) :
  publish_timer (publish_loop fuel statements w).1.2 = publish_timer w
  ∧ timers (publish_loop fuel statements w).1.2 = timers w.
Proof.
  revert statements w. induction fuel as [|fuel IH]; intros [|s l] w; try done.
  cbn [publish_loop]. unfold bind. rewrite publish_attempt_unfold.
  destruct (publish_statements (lrs w) (s :: l)) as [[e|] l'].
  - destruct e; try done.
    + destruct (bool_decide _); [|done].
      specialize (IH (s :: l)
                    (set_publish_retries (publish_retries w + 1) (set_lrs l' w))).
      by destruct (publish_loop fuel _ _) as [[o w'] t'].
    + destruct (list_remove statement (s :: l)) as [r|]; [|done].
      specialize (IH r (set_lrs l' w)).
      by destruct (publish_loop fuel _ _) as [[o w'] t'].
  - destruct (published_spec (s :: l) (set_lrs l' w)) as (t & Hp & _).
    by rewrite Hp.
Qed.

(** Once [publish] has returned, no timer of a queue used from one thread
    is armed. *)
Lemma publish_cancels_timers (w w' : @World Statement Lrs)
    (t : list (@event Statement)) :
  cache_lock w = false ->
  publish w = (Ret tt, w', t) ->
  timers_tracked w ->
  cache w' = [] ∧ cache_lock w' = false ∧ ∀ h, timers w' !! h ≠ Some Armed.
Proof.
  intros Hlock Hpub Hinv. rewrite (publish_unfold w Hlock) in Hpub.
  destruct (publish_loop_timers (loop_bound (cache w) (publish_retries w))
              (cache w) (set_cache_lock true w)) as [Htimer Htimers].
  destruct (publish_loop _ _ _) as [[[b|e| |] w1] t1]; try done.
  cbn in Htimer, Htimers. injection Hpub as <- <-.
  split; [done|]. split; [done|].
  cbn. unfold cancelled_timers. rewrite Htimer, Htimers.
  intros h Harmed.
  assert (Hw : timers w !! h = Some Armed).
  { destruct (publish_timer w) as [h0|]; [|done].
    destruct (decide (h0 = h)) as [->|Hne].
    - by apply list_lookup_insert_Some in Harmed as [(_ & Hc & _) | (Hne & _)].
    - by rewrite list_lookup_insert_ne in Harmed. }
  destruct (Hinv h Hw) as [Href _]. rewrite Href in Harmed.
  by apply list_lookup_insert_Some in Harmed as [(_ & Hc & _) | (Hne & _)].
Qed.

Lemma timers_tracked_new_session (store : Lrs) :
  timers_tracked (new_session store).
Proof. intros h Harmed. cbn in Harmed. by rewrite lookup_nil in Harmed. Qed.

(** C7.  [publish] on an empty batch makes no network call, logs nothing
    and leaves the retry counter, the lifetime counter, the store and the
    tailer's buffer as they were: the batch is still empty, the lock is
    free again, and the only change is that the timer [publish_timer]
    refers to, if any, is cancelled. *)
Theorem publish_empty_batch_is_noop (w : @World Statement Lrs) :
  cache w = [] -> cache_lock w = false ->
  ∃ w' t,
    publish w = (Ret tt, w', t)
    ∧ net_calls t = []
    ∧ log_of t = []
    ∧ publish_retries w' = publish_retries w
    ∧ total_published_successfully w' = total_published_successfully w
    ∧ lrs w' = lrs w
    ∧ raceBuffer w' = raceBuffer w
    ∧ cache w' = []
    ∧ cache_lock w' = false
    ∧ publish_timer w' = publish_timer w
    ∧ timers w' = cancelled_timers w.
Proof.
  intros Hcache Hlock. eexists _, _.
  split; [exact (publish_on_empty_cache w Hcache Hlock)|].
  by destruct (publish_timer w) eqn:Htimer.
Qed.

(** C6.  Whenever [publish] returns - the store accepted the batch, or
    the batch emptied with nothing accepted - the batch is empty, the lock
    is free and the timer [publish_timer] refers to is not armed, which in
    a queue used from one thread leaves no timer armed at all; a [publish]
    that follows finds nothing to send. *)
Theorem publish_clears_batch_and_timer (w w' : @World Statement Lrs)
    (t : list (@event Statement)) :
  publish w = (Ret tt, w', t) ->
  cache w' = []
  ∧ cache_lock w' = false
  ∧ (∀ h, publish_timer w' = Some h -> timers w' !! h ≠ Some Armed)
  ∧ (timers_tracked w -> ∀ h, timers w' !! h ≠ Some Armed)
  ∧ net_calls (publish w').2 = [].
Proof.
  intros Hpub.
  destruct (cache_lock w) eqn:Hlock.
  { unfold publish, with_cache_lock in Hpub. by rewrite Hlock in Hpub. }
  assert (Hall : timers_tracked w -> ∀ h, timers w' !! h ≠ Some Armed).
  { intros Hinv. by apply (publish_cancels_timers w w' t Hlock Hpub). }
  revert Hall.
  rewrite (publish_unfold w Hlock) in Hpub.
  destruct (publish_loop _ _ _) as [[[b|e| |] w1] t1]; try done.
  injection Hpub as <- <-. intros Hall.
  split; [done|]. split; [done|]. split; [|split; [exact Hall|]].
  - cbn. unfold cancelled_timers. intros h ->.
    destruct (decide (h < length (timers w1))%nat) as [Hh|Hh].
    + by rewrite list_lookup_insert_eq.
    + rewrite list_insert_ge by lia.
      rewrite lookup_ge_None_2; [done | lia].
  - rewrite publish_on_empty_cache by done.
    cbn. by destruct (publish_timer w1).
Qed.

(** *** The publish queue: connection failures *)

(** The loop against a store that answers every call with a
    connection-class error: [k] counted retries are left before the pass
    that finds the counter above the maximum. *)
Lemma publish_loop_unreachable (k fuel : nat) (statements : list Statement)
    (w : @World Statement Lrs) :
  (∀ store l, (publish_statements store l).1 = Some XAPIBridgeLRSConnectionError) ->
  statements ≠ [] ->
  Z.to_nat (PUBLISH_MAX_RETRIES settings - publish_retries w + 1) = k ->
  (k < fuel)%nat ->
  ∃ w' t,
    publish_loop fuel statements w = (Raise SystemExit, w', t)
    ∧ net_calls t = replicate (S k) statements
    ∧ CannotContinue ∈ log_of t
    ∧ cache w' = cache w
    ∧ publish_timer w' = publish_timer w
    ∧ timers w' = timers w.
Proof.
  intros Hdown Hne. revert fuel w.
  induction k as [|k IH]; intros fuel w Hk Hfuel.
  - destruct fuel as [|fuel]; [lia|].
    destruct statements as [|s l]; [done|].
    cbn [publish_loop]. unfold bind. rewrite publish_attempt_unfold.
    specialize (Hdown (lrs w) (s :: l)).
    destruct (publish_statements (lrs w) (s :: l)) as [r l']. cbn in Hdown.
    subst r. rewrite bool_decide_eq_false_2 by lia.
    eexists _, _. split; [reflexivity|].
    repeat split; try done. cbn. apply list_elem_of_here.
  - destruct fuel as [|fuel]; [lia|].
    destruct statements as [|s l]; [done|].
    cbn [publish_loop]. unfold bind. rewrite publish_attempt_unfold.
    specialize (Hdown (lrs w) (s :: l)).
    destruct (publish_statements (lrs w) (s :: l)) as [r l']. cbn in Hdown.
    subst r. rewrite bool_decide_eq_true_2 by lia.
    destruct (IH fuel (set_publish_retries (publish_retries w + 1) (set_lrs l' w)))
      as (w' & t & Hloop & Hcalls & Hlog & Hcache & Htimer & Htimers);
      [cbn; lia | lia |].
    rewrite Hloop. eexists _, _. split; [reflexivity|].
    repeat split; try done.
    unfold net_calls in *. cbn. by rewrite Hcalls.
Qed.

(** C1, as the code has it.  With the retry counter at zero and a store
    that answers every call with a connection-class error, [publish]
    retries while the counter is at most [PUBLISH_MAX_RETRIES] - not while
    it is below it - so it makes [PUBLISH_MAX_RETRIES + 2] attempts, each
    with the whole batch, before it reports the fatal condition and the
    process exits; the batch is then still in place. *)
Theorem publish_retry_exhaustion (w : @World Statement Lrs) :
  (∀ store l, (publish_statements store l).1 = Some XAPIBridgeLRSConnectionError) ->
  cache w ≠ [] ->
  cache_lock w = false ->
  publish_retries w = 0 ->
  0 <= PUBLISH_MAX_RETRIES settings ->
  ∃ w' t,
    publish w = (Raise SystemExit, w', t)
    ∧ net_calls t
      = replicate (Z.to_nat (PUBLISH_MAX_RETRIES settings + 2)) (cache w)
    ∧ CannotContinue ∈ log_of t
    ∧ cache w' = cache w.
Proof.
  intros Hdown Hne Hlock Hretries Hmax.
  rewrite (publish_unfold w Hlock).
  destruct (publish_loop_unreachable
              (Z.to_nat (PUBLISH_MAX_RETRIES settings + 1))
              (loop_bound (cache w) (publish_retries w)) (cache w)
              (set_cache_lock true w) Hdown Hne)
    as (w' & t & Hloop & Hcalls & Hlog & Hcache & _).
  { cbn. rewrite Hretries. f_equal. lia. }
  { unfold loop_bound. rewrite Hretries. lia. }
  rewrite Hloop. eexists _, _. split; [reflexivity|].
  split; [|split].
  - trace_simpl. rewrite Hcalls, app_nil_r.
    replace (Z.to_nat (PUBLISH_MAX_RETRIES settings + 2))
      with (S (Z.to_nat (PUBLISH_MAX_RETRIES settings + 1))) by lia.
    done.
  - trace_simpl. apply elem_of_app. by left.
  - exact Hcache.
Qed.

(** *** The publish queue: a rejected statement *)

(** C3.  The store rejects statement [k] of the batch [l1 ++ k :: l2] on
    the first attempt and accepts the rest on the second.  Then [publish]
    makes exactly these two calls, the second with the batch less [k], the
    other statements in their order; it logs the rejection as a warning
    and returns; the lifetime counter grows by the statements accepted;
    and the batch is empty afterwards, so [k] is not in any later batch. *)
Theorem publish_drops_rejected_statement (w : @World Statement Lrs)
    (k : Statement) (l1 l2 : list Statement) (store1 store2 : Lrs) :
  cache_lock w = false ->
  cache w = l1 ++ k :: l2 ->
  k ∉ l1 ->
  l1 ++ l2 ≠ [] ->
  publish_statements (lrs w) (l1 ++ k :: l2)
    = (Some (XAPIBridgeStatementStorageError k), store1) ->
  publish_statements store1 (l1 ++ l2) = (None, store2) ->
  ∃ w' t,
    publish w = (Ret tt, w', t)
    ∧ net_calls t = [l1 ++ k :: l2; l1 ++ l2]
    ∧ RejectedStatement k ∈ log_of t
    ∧ cache w' = []
    ∧ lrs w' = store2
    ∧ publish_retries w' = 0
    ∧ total_published_successfully w'
      = total_published_successfully w + Z.of_nat (length (l1 ++ l2)).
Proof.
  intros Hlock Hcache Hk Hrest Hreject Haccept.
  rewrite (publish_unfold w Hlock), Hcache.
  assert (Hfuel : ∃ fuel,
             loop_bound (l1 ++ k :: l2) (publish_retries w) = S (S fuel)).
  { unfold loop_bound. rewrite length_app. cbn.
    destruct l1 as [|x l1], l2 as [|y l2]; [done| | |]; cbn;
      eexists; f_equal; rewrite <- ?Nat.add_succ_r, ?Nat.add_succ_l;
      reflexivity. }
  destruct Hfuel as [fuel ->].
  destruct (l1 ++ k :: l2) as [|s0 l0] eqn:Hbatch.
  { by destruct l1. }
  cbn [publish_loop]. unfold bind at 1. rewrite publish_attempt_unfold.
  cbn [lrs set_cache_lock]. rewrite Hreject.
  rewrite <- Hbatch, (list_remove_first k l1 l2 Hk).
  destruct (l1 ++ l2) as [|s1 l3] eqn:Hleft; [done|].
  cbn [publish_loop after]. unfold bind at 1. rewrite publish_attempt_unfold.
  cbn [lrs set_lrs]. rewrite Haccept.
  destruct (published_spec (s1 :: l3)
              (set_lrs store2 (set_lrs store1 (set_cache_lock true w))))
    as (tp & Hp & Hpcalls & Hplog).
  rewrite Hp. cbn -[net_calls log_of].
  eexists _, _. split; [reflexivity|].
  split; [|split].
  - trace_simpl. rewrite Hpcalls. by destruct (publish_timer w).
  - trace_simpl. apply list_elem_of_here.
  - done.
Qed.

(** *** The publish queue: [push] *)

(** [push], step by step: the append under the lock, the length read and
    the arming of the timer after the release, the second length read and
    the [publish] of a full batch. *)
Lemma push_unfold (stmt : Statement) (w : @World Statement Lrs) :
  cache_lock w = false ->
  push stmt w =
    after ([EvAcquire; EvTouch FCache; EvRelease; EvTouch FCache]
             ++ (arm_timer (appended stmt w)).2 ++ [EvTouch FCache])
      (if bool_decide (PUBLISH_MAX_PAYLOAD settings
                       <= Z.of_nat (length (cache w ++ [stmt])))
       then publish (arm_timer (appended stmt w)).1
       else (Ret tt, (arm_timer (appended stmt w)).1, [])).
Proof.
  intros Hlock. unfold push.
  unfold bind at 1. unfold with_cache_lock. rewrite Hlock.
  cbn [write_field bind emit modify after app].
  change (set_cache_lock false _) with (appended stmt w).
  rewrite bind_read_field. unfold arm_timer.
  destruct (bool_decide (length (cache (appended stmt w)) = 1%nat)
            && bool_decide (0 < PUBLISH_MAX_WAIT_TIME settings)).
  - unfold start_publish_timer.
    rewrite bind_assoc, bind_get, bind_assoc, bind_write_field, bind_emit.
    rewrite bind_read_field. rewrite !after_after. cbn [fst snd app].
    by destruct (bool_decide (PUBLISH_MAX_PAYLOAD settings <= _)).
  - rewrite bind_ret, bind_read_field. rewrite !after_after. cbn [fst snd app].
    by destruct (bool_decide (PUBLISH_MAX_PAYLOAD settings <= _)).
Qed.

Lemma arm_timer_frame (w : @World Statement Lrs) :
  cache (arm_timer w).1 = cache w
  ∧ cache_lock (arm_timer w).1 = cache_lock w
  ∧ net_calls (arm_timer w).2 = [].
Proof. unfold arm_timer. by destruct (_ && _). Qed.

(** A [push] that leaves the batch below the threshold only appends (and
    may arm the timer): it makes no network call. *)
Lemma push_below_threshold (stmt : Statement) (w : @World Statement Lrs) :
  cache_lock w = false ->
  Z.of_nat (length (cache w ++ [stmt])) < PUBLISH_MAX_PAYLOAD settings ->
  ∃ w' t,
    push stmt w = (Ret tt, w', t)
    ∧ net_calls t = []
    ∧ cache w' = cache w ++ [stmt]
    ∧ cache_lock w' = false.
Proof.
  intros Hlock Hlen. rewrite (push_unfold stmt w Hlock).
  rewrite bool_decide_eq_false_2 by lia.
  destruct (arm_timer_frame (appended stmt w)) as (Hcache & Hlk & Hcalls).
  eexists _, _. split; [reflexivity|].
  split; [|split].
  - trace_simpl. by rewrite Hcalls.
  - by rewrite Hcache.
  - by rewrite Hlk.
Qed.

(** Pushing one statement after the other, the batch staying below the
    threshold. *)
Lemma pushes_below_threshold (l : list Statement) (w : @World Statement Lrs) :
  cache_lock w = false ->
  Z.of_nat (length (cache w ++ l)) < PUBLISH_MAX_PAYLOAD settings ->
  ∃ w' t,
    for_each push l w = (Ret tt, w', t)
    ∧ net_calls t = []
    ∧ cache w' = cache w ++ l
    ∧ cache_lock w' = false.
Proof.
  revert w. induction l as [|s l IH]; intros w Hlock Hlen.
  - eexists _, _. split; [reflexivity|]. by rewrite app_nil_r.
  - destruct (push_below_threshold s w Hlock) as (w1 & t1 & Hpush & Hc1 & Hcache1 & Hlock1).
    { rewrite !length_app in *. cbn in *. lia. }
    destruct (IH w1 Hlock1) as (w2 & t2 & Hrest & Hc2 & Hcache2 & Hlock2).
    { rewrite Hcache1, <- app_assoc. exact Hlen. }
    cbn [for_each]. unfold bind. rewrite Hpush, Hrest.
    eexists _, _. split; [reflexivity|].
    split; [|split].
    + trace_simpl. by rewrite Hc1, Hc2.
    + by rewrite Hcache2, Hcache1, <- app_assoc.
    + done.
Qed.

(** A [push] that returns keeps the timers tracked: it arms a timer only
    for the first statement of a batch, when none is armed. *)
Lemma timers_tracked_push (stmt : Statement) (w w' : @World Statement Lrs)
    (t : list (@event Statement)) :
  cache_lock w = false ->
  timers_tracked w ->
  push stmt w = (Ret tt, w', t) ->
  timers_tracked w' ∧ cache_lock w' = false.
Proof.
  intros Hlock Hinv Hpush. rewrite (push_unfold stmt w Hlock) in Hpush.
  assert (Harmed : timers_tracked (arm_timer (appended stmt w)).1
                   ∧ cache_lock (arm_timer (appended stmt w)).1 = false).
  { unfold arm_timer.
    destruct (bool_decide (length (cache (appended stmt w)) = 1%nat)
              && bool_decide (0 < PUBLISH_MAX_WAIT_TIME settings)) eqn:Harm.
    - apply andb_true_iff in Harm as [Hone _].
      apply bool_decide_eq_true_1 in Hone. cbn in Hone.
      rewrite length_app in Hone. cbn in Hone.
      assert (Hempty : cache w = []) by (apply length_zero_iff_nil; lia).
      split; [|done]. intros h Hh. cbn in Hh |- *.
      apply lookup_app_Some in Hh as [Hold | [Hge Hnew]].
      + by destruct (Hinv h Hold) as [_ Hne].
      + split; [|by destruct (cache w)].
        apply list_lookup_singleton_Some in Hnew as [Hzero _].
        f_equal. lia.
    - split; [|done]. intros h Hh. cbn in Hh |- *.
      destruct (Hinv h Hh) as [Href _]. split; [done|].
      by destruct (cache w). }
  destruct Harmed as [Hinv' Hlock'].
  destruct (bool_decide (PUBLISH_MAX_PAYLOAD settings <= _)).
  - destruct (publish _) as [[o w2] t2] eqn:Hpub. cbn in Hpush.
    injection Hpush as -> -> _.
    destruct (publish_cancels_timers _ _ _ Hlock' Hpub Hinv')
      as (_ & Hfree & Hnone).
    split; [|done]. intros h Hh. by destruct (Hnone h).
  - cbn in Hpush. by injection Hpush as <- _.
Qed.

(** The first pass of the loop submits the whole sequence. *)
Lemma publish_loop_first_call fuel (statements : list Statement)
    (w : @World Statement Lrs) :
  statements ≠ [] ->
  ∃ rest, net_calls (publish_loop (S fuel) statements w).2 = statements :: rest.
Proof.
  intros Hne. destruct statements as [|s l]; [done|].
  cbn [publish_loop]. unfold bind. rewrite publish_attempt_unfold.
  destruct (publish_statements (lrs w) (s :: l)) as [[e|] l'].
  - destruct e; try (eexists; by trace_simpl).
    + destruct (bool_decide _); [|eexists; by trace_simpl].
      destruct (publish_loop fuel _ _) as [[o w'] t'].
      eexists. by trace_simpl.
    + destruct (list_remove statement (s :: l)); [|eexists; by trace_simpl].
      destruct (publish_loop fuel _ _) as [[o w'] t'].
      eexists. by trace_simpl.
  - eexists. by trace_simpl.
Qed.

(** [publish] on a non-empty batch first submits the whole batch. *)
Lemma publish_first_call (w : @World Statement Lrs) :
  cache w ≠ [] -> cache_lock w = false ->
  ∃ rest, net_calls (publish w).2 = cache w :: rest.
Proof.
  intros Hne Hlock. rewrite (publish_unfold w Hlock). unfold loop_bound.
  destruct (publish_loop_first_call
              (length (cache w)
               + Z.to_nat (PUBLISH_MAX_RETRIES settings - publish_retries w + 1))
              (cache w) (set_cache_lock true w) Hne) as [rest Hrest].
  destruct (publish_loop _ _ _) as [[[b|e| |] w1] t]; cbn in Hrest;
    eexists; trace_simpl; rewrite Hrest; reflexivity.
Qed.

(** C5.  From an empty batch, pushing the statements of [l ++ [s]] one
    after the other, their number being [PUBLISH_MAX_PAYLOAD]: the pushes
    of [l] return without a network call and leave the batch [l]; the
    push of [s] calls [publish] before it returns, and the first thing
    that does is submit [l ++ [s]], all the statements in push order. *)
Theorem push_publishes_full_batch (l : list Statement) (s : Statement)
    (w : @World Statement Lrs) :
  cache w = [] ->
  cache_lock w = false ->
  Z.of_nat (length (l ++ [s])) = PUBLISH_MAX_PAYLOAD settings ->
  ∃ w1 t1,
    for_each push l w = (Ret tt, w1, t1)
    ∧ net_calls t1 = []
    ∧ cache w1 = l
    ∧ ∃ rest, net_calls (push s w1).2 = (l ++ [s]) :: rest.
Proof.
  intros Hcache Hlock Hmax.
  destruct (pushes_below_threshold l w Hlock) as (w1 & t1 & Hpush & Hc1 & Hcache1 & Hlock1).
  { rewrite Hcache. cbn. rewrite length_app in Hmax. cbn in Hmax. lia. }
  rewrite Hcache in Hcache1. cbn in Hcache1.
  exists w1, t1. split; [done|]. split; [done|]. split; [done|].
  rewrite (push_unfold s w1 Hlock1), Hcache1.
  rewrite bool_decide_eq_true_2 by lia.
  destruct (arm_timer_frame (appended s w1)) as (Hcachea & Hlka & Hcallsa).
  destruct (publish_first_call (arm_timer (appended s w1)).1) as [rest Hrest].
  { rewrite Hcachea. cbn. rewrite Hcache1. by destruct l. }
  { by rewrite Hlka. }
  rewrite Hcachea in Hrest. cbn in Hrest. rewrite Hcache1 in Hrest.
  destruct (publish _) as [[o w2] t2]. cbn in Hrest.
  exists rest. trace_simpl. by rewrite Hcallsa, Hrest.
Qed.

(** *** The publish queue: the lock *)

(** C9, as the code has it.  [publish] holds the lock from its first
    access to the queue's fields to its last.  [push] holds it for the
    append only: it reads the length of the batch, arms the timer and reads
    the length again after the release, and a [publish] it triggers takes
    the lock itself; so not every access of [push] is made with the lock
    held. *)
Theorem queue_lock_coverage (stmt : Statement) (w : @World Statement Lrs) :
  cache_lock w = false ->
  locked_accesses false (publish w).2 = true
  ∧ (push stmt w).2 =
      [EvAcquire; EvTouch FCache; EvRelease; EvTouch FCache]
        ++ (arm_timer (appended stmt w)).2
        ++ [EvTouch FCache]
        ++ (if bool_decide (PUBLISH_MAX_PAYLOAD settings
                            <= Z.of_nat (length (cache w ++ [stmt])))
            then (publish (arm_timer (appended stmt w)).1).2
            else [])
  ∧ locked_accesses false (push stmt w).2 = false.
Proof.
  intros Hlock.
  assert (Hpush : (push stmt w).2 =
      [EvAcquire; EvTouch FCache; EvRelease; EvTouch FCache]
        ++ (arm_timer (appended stmt w)).2
        ++ [EvTouch FCache]
        ++ (if bool_decide (PUBLISH_MAX_PAYLOAD settings
                            <= Z.of_nat (length (cache w ++ [stmt])))
            then (publish (arm_timer (appended stmt w)).1).2
            else [])).
  { rewrite (push_unfold stmt w Hlock).
    destruct (bool_decide _).
    - destruct (publish _) as [[o w2] t2]. cbn. by rewrite <- app_assoc.
    - cbn. by rewrite <- app_assoc. }
  split; [|split; [exact Hpush|]].
  - rewrite (publish_unfold w Hlock).
    pose proof (emits_publish_loop
                  (loop_bound (cache w) (publish_retries w)) (cache w)
                  (set_cache_lock true w)) as Hloop.
    destruct (publish_loop _ _ _) as [[[b|e| |] w1] t]; cbn in Hloop; cbn.
    + rewrite (locked_accesses_loop_events t _ Hloop).
      by destruct (publish_timer w1).
    + by rewrite (locked_accesses_loop_events t _ Hloop).
    + rewrite <- (app_nil_r t).
      by rewrite (locked_accesses_loop_events t _ Hloop).
    + rewrite <- (app_nil_r t).
      by rewrite (locked_accesses_loop_events t _ Hloop).
  - by rewrite Hpush.
Qed.

(** *** The tailer *)

Lemma string_app_assoc (a b c : string) : (a +:+ b) +:+ c = a +:+ (b +:+ c).
Proof.
  induction a as [|x a IH]; [done|].
  change (String x ((a +:+ b) +:+ c) = String x (a +:+ (b +:+ c))).
  by rewrite IH.
Qed.

Lemma try_except_emit {A} (e : @event Statement) (m : M A) handler
    (w : @World Statement Lrs) :
  try_except (emit e ;; m) handler w = after [e] (try_except m handler w).
Proof.
  unfold try_except. rewrite bind_emit.
  destruct (m w) as [[[a|ex| |] w1] t1]; try done.
  cbn. destruct (handler ex) as [h|]; [|done].
  by rewrite after_after.
Qed.

Lemma bind_after {A B} (t : list (@event Statement)) (m : M A) (f : A -> M B)
    (w : @World Statement Lrs) :
  bind (fun w0 => after t (m w0)) f w = after t (bind m f w).
Proof.
  unfold bind. destruct (m w) as [[[a| | |] w1] t1]; try done.
  cbn. by rewrite after_after.
Qed.

Lemma emits_to_xapi (evt : json) : emits queue_event (to_xapi evt).
Proof.
  unfold to_xapi, getitem, call_replace.
  repeat emits_step.
  apply emits_try_except.
  - unfold call_constructor. repeat emits_step.
  - intros e h He. destruct e; try done. injection He as <-.
    unfold load_local. repeat emits_step.
Qed.

(** A line that decodes is handed to the converter, once; nothing else
    is. *)
Lemma process_line_dispatched (e : string) (w : @World Statement Lrs) :
  dispatched (process_line e w).2 =
    match json_loads e with
    | Some evt_obj => [evt_obj]
    | None => []
    end.
Proof.
  unfold process_line. destruct (json_loads e) as [evt_obj|]; [|done].
  assert (Hrest : emits queue_event
            (xapi <- try_except (to_xapi evt_obj)
                       (fun ex =>
                          match ex with
                          | XAPIBridgeStatementConversionError =>
                              Some (err_continue_msg ConversionFailed ;; ret None)
                          | _ => None
                          end) ;;
             match xapi with
             | None => ret tt
             | Some l => for_each push l
             end)).
  { apply emits_bind.
    - apply emits_try_except; [apply emits_to_xapi|].
      intros ex h He. destruct ex; try done. injection He as <-.
      unfold err_continue_msg. repeat emits_step.
    - intros [l|]; [|apply emits_ret].
      apply emits_for_each. apply emits_push. }
  specialize (Hrest w). apply dispatched_queue_events in Hrest.
  unfold bind at 1.
  rewrite try_except_emit.
  unfold bind at 1 in Hrest.
  destruct (try_except (to_xapi evt_obj) _ w) as [[[xapi|ex| |] w1] t1];
    cbn in Hrest |- *; try (by rewrite dispatched_cons, Hrest).
  destruct (match xapi with
            | Some l => for_each push l
            | None => ret ()
            end w1) as [[o w2] t2].
  cbn in Hrest |- *. by rewrite dispatched_cons, Hrest.
Qed.

(** When the loop over the lines runs to its end, the records dispatched
    are those of the lines that decode, in order. *)
Lemma process_lines_dispatched (ls : list string)
    (w w' : @World Statement Lrs) (t : list (@event Statement)) :
  for_each process_line ls w = (Ret tt, w', t) ->
  dispatched t = omap json_loads ls.
Proof.
  revert w t. induction ls as [|e ls IH]; intros w t Hrun.
  - by injection Hrun as <- <-.
  - cbn [for_each] in Hrun. unfold bind in Hrun.
    pose proof (process_line_dispatched e w) as Hline.
    destruct (process_line e w) as [[[[]|ex| |] w1] t1]; try done.
    destruct (for_each process_line ls w1) as [[o w2] t2] eqn:Hrest.
    cbn in Hrun, Hline. injection Hrun as -> -> <-.
    rewrite dispatched_app, Hline, (IH w1 t2 Hrest).
    cbn. by destruct (json_loads e).
Qed.

Lemma string_length_nonzero (s : string) :
  s ≠ EmptyString -> String.length s ≠ 0%nat.
Proof. by destruct s. Qed.

(** C4, as the code has it.  When the buffer a read completes - the
    RaceBuffer followed by the bytes read - is not empty and does not end
    in a line terminator, the whole of it, complete lines and trailing
    partial segment alike, becomes the RaceBuffer and nothing else
    happens: no record is dispatched.  A read that follows then behaves as
    one read of both pieces would have; when it completes the last line
    and the handler runs to its end, the records dispatched are those of
    the lines of the concatenation, in order. *)
Theorem partial_line_is_buffered (w : @World Statement Lrs) (r1 : string) :
  raceBuffer w +:+ r1 ≠ EmptyString ->
  last_char (raceBuffer w +:+ r1) ≠ Some newline ->
  process_IN_MODIFY r1 w = (Ret tt, set_raceBuffer (raceBuffer w +:+ r1) w, [])
  ∧ (∀ r2,
       process_IN_MODIFY r2 (set_raceBuffer (raceBuffer w +:+ r1) w)
       = process_IN_MODIFY (r1 +:+ r2) w)
  ∧ (∀ r2 w2 t2,
       last_char (raceBuffer w +:+ (r1 +:+ r2)) = Some newline ->
       process_IN_MODIFY r2 (set_raceBuffer (raceBuffer w +:+ r1) w)
       = (Ret tt, w2, t2) ->
       dispatched t2
       = omap json_loads (lines_of (raceBuffer w +:+ (r1 +:+ r2)))).
Proof.
  intros Hne Hlast.
  assert (Hjoin : ∀ r2,
             process_IN_MODIFY r2 (set_raceBuffer (raceBuffer w +:+ r1) w)
             = process_IN_MODIFY (r1 +:+ r2) w).
  { intros r2. unfold process_IN_MODIFY. rewrite !bind_get.
    cbn [raceBuffer set_raceBuffer]. rewrite string_app_assoc.
    destruct (_ && _); [done|].
    by rewrite !bind_modify. }
  split; [|split; [exact Hjoin|]].
  - unfold process_IN_MODIFY. rewrite bind_get.
    rewrite (bool_decide_eq_true_2 _ (string_length_nonzero _ Hne)).
    by rewrite (bool_decide_eq_true_2 _ Hlast).
  - intros r2 w2 t2 Hdone. rewrite Hjoin.
    unfold process_IN_MODIFY. rewrite bind_get.
    rewrite (bool_decide_eq_false_2 (last_char _ ≠ _)) by (by intros []).
    rewrite andb_false_r, bind_modify.
    apply process_lines_dispatched.
Qed.

(** *** The publish queue: further properties of [publish] *)

(** What [publish] adds around the loop makes no network call and leaves
    the counters and the store as the loop left them. *)
Lemma publish_of_loop (w : @World Statement Lrs) :
  cache_lock w = false ->
  net_calls (publish w).2
    = net_calls (publish_loop (loop_bound (cache w) (publish_retries w))
                   (cache w) (set_cache_lock true w)).2
  ∧ publish_retries (publish w).1.2
    = publish_retries (publish_loop (loop_bound (cache w) (publish_retries w))
                         (cache w) (set_cache_lock true w)).1.2
  ∧ total_published_successfully (publish w).1.2
    = total_published_successfully
        (publish_loop (loop_bound (cache w) (publish_retries w))
           (cache w) (set_cache_lock true w)).1.2.
Proof.
  intros Hlock. rewrite (publish_unfold w Hlock).
  destruct (publish_loop _ _ _) as [[[b|e| |] w1] t]; trace_simpl;
    rewrite ?app_nil_r; try done.
  destruct (publish_timer w1); trace_simpl; by rewrite app_nil_r.
Qed.

(** The loop against a store that fails [k] times and then accepts. *)
Lemma publish_loop_recovers (k fuel : nat) (statements : list Statement)
    (w : @World Statement Lrs) :
  statements ≠ [] ->
  fails_then_accepts k (lrs w) statements ->
  ((0 < k)%nat ->
   Z.of_nat k <= PUBLISH_MAX_RETRIES settings - publish_retries w + 1) ->
  (k < fuel)%nat ->
  ∃ w' t,
    publish_loop fuel statements w = (Ret true, w', t)
    ∧ net_calls t = replicate (S k) statements
    ∧ PublishedSuccessfully
        (total_published_successfully w + Z.of_nat (length statements))
      ∈ log_of t
    ∧ publish_retries w' = 0
    ∧ total_published_successfully w'
      = total_published_successfully w + Z.of_nat (length statements).
Proof.
  intros Hne. revert fuel w.
  induction k as [|k IH]; intros fuel w Hstore Hk Hfuel;
    (destruct fuel as [|fuel]; [lia|]);
    (destruct statements as [|s l]; [done|]);
    cbn [publish_loop]; unfold bind; rewrite publish_attempt_unfold;
    cbn [fails_then_accepts] in Hstore;
    destruct (publish_statements (lrs w) (s :: l)) as [r l'];
    cbn [fst snd] in Hstore.
  - subst r.
    destruct (published_spec (s :: l) (set_lrs l' w)) as (tp & Hp & Hpc & Hpl).
    rewrite Hp. cbn -[net_calls log_of Z.of_nat].
    eexists _, _. split; [reflexivity|].
    split; [|split; [|done]].
    + trace_simpl. by rewrite Hpc.
    + trace_simpl. apply elem_of_app. by left.
  - destruct Hstore as [-> Hstore].
    specialize (Hk ltac:(lia)).
    rewrite bool_decide_eq_true_2 by lia.
    destruct (IH fuel (set_publish_retries (publish_retries w + 1) (set_lrs l' w)))
      as (w' & t & Hloop & Hcalls & Hlog & Hretries & Htotal);
      [done | cbn; lia | lia |].
    rewrite Hloop. eexists _, _. split; [reflexivity|].
    split; [|split; [|done]].
    + trace_simpl. by rewrite Hcalls.
    + trace_simpl. exact Hlog.
Qed.

(** X1.  Transient connection failures are ridden out: when the store
    fails [k] calls with a connection-class error and accepts the next,
    and at most [PUBLISH_MAX_RETRIES + 1] minus the current count of
    retries have failed, [publish] submits the whole batch [k + 1] times,
    returns, resets the retry counter to zero, adds the size of the batch
    to the lifetime counter and leaves the batch empty. *)
Theorem publish_recovers_from_connection_errors (k : nat)
    (w : @World Statement Lrs) :
  cache_lock w = false ->
  cache w ≠ [] ->
  fails_then_accepts k (lrs w) (cache w) ->
  Z.of_nat k <= PUBLISH_MAX_RETRIES settings - publish_retries w + 1 ->
  ∃ w' t,
    publish w = (Ret tt, w', t)
    ∧ net_calls t = replicate (S k) (cache w)
    ∧ PublishedSuccessfully
        (total_published_successfully w + Z.of_nat (length (cache w)))
      ∈ log_of t
    ∧ cache w' = []
    ∧ publish_retries w' = 0
    ∧ total_published_successfully w'
      = total_published_successfully w + Z.of_nat (length (cache w)).
Proof.
  intros Hlock Hne Hstore Hk. rewrite (publish_unfold w Hlock).
  destruct (publish_loop_recovers k (loop_bound (cache w) (publish_retries w))
              (cache w) (set_cache_lock true w) Hne Hstore (fun _ => Hk))
    as (w1 & t & Hloop & Hcalls & Hlog & Hretries & Htotal).
  { unfold loop_bound. lia. }
  rewrite Hloop. eexists _, _. split; [reflexivity|].
  split; [|split; [|done]].
  - trace_simpl. rewrite Hcalls. destruct (publish_timer w1); trace_simpl;
      by rewrite app_nil_r.
  - trace_simpl. apply elem_of_app. by left.
Qed.

(** The loop never writes the batch, the lock or the tailer's buffer. *)
Lemma publish_loop_frame fuel statements (w : @World Statement Lrs) :
  cache (publish_loop fuel statements w).1.2 = cache w
  ∧ cache_lock (publish_loop fuel statements w).1.2 = cache_lock w
  ∧ raceBuffer (publish_loop fuel statements w).1.2 = raceBuffer w.
Proof.
  revert statements w. induction fuel as [|fuel IH]; intros [|s l] w; try done.
  cbn [publish_loop]. unfold bind. rewrite publish_attempt_unfold.
  destruct (publish_statements (lrs w) (s :: l)) as [[e|] l'].
  - destruct e; try done.
    + destruct (bool_decide _); [|done].
      specialize (IH (s :: l)
                    (set_publish_retries (publish_retries w + 1) (set_lrs l' w))).
      by destruct (publish_loop fuel _ _) as [[o w'] t'].
    + destruct (list_remove statement (s :: l)) as [r|]; [|done].
      specialize (IH r (set_lrs l' w)).
      by destruct (publish_loop fuel _ _) as [[o w'] t'].
  - destruct (published_spec (s :: l) (set_lrs l' w)) as (t & Hp & _).
    by rewrite Hp.
Qed.

(** X2.  A [publish] that raises - the fatal exit after the retries, or
    an exception it does not handle - clears nothing: the batch is still
    in place, no timer has been touched, and the lock is free again. *)
Theorem publish_failure_keeps_batch (w w' : @World Statement Lrs)
    (e : @exn Statement) (t : list (@event Statement)) :
  publish w = (Raise e, w', t) ->
  cache w' = cache w
  ∧ publish_timer w' = publish_timer w
  ∧ timers w' = timers w
  ∧ cache_lock w' = false.
Proof.
  intros Hpub.
  destruct (cache_lock w) eqn:Hlock.
  { unfold publish, with_cache_lock in Hpub. by rewrite Hlock in Hpub. }
  rewrite (publish_unfold w Hlock) in Hpub.
  destruct (publish_loop_frame (loop_bound (cache w) (publish_retries w))
              (cache w) (set_cache_lock true w)) as (Hcache & _ & _).
  destruct (publish_loop_timers (loop_bound (cache w) (publish_retries w))
              (cache w) (set_cache_lock true w)) as [Htimer Htimers].
  destruct (publish_loop _ _ _) as [[[b|e1| |] w1] t1]; try done.
  injection Hpub as _ <- _. by cbn in *.
Qed.

Lemma list_remove_absent x l : x ∉ l -> list_remove x l = None.
Proof.
  induction l as [|y l IH]; intros Hx; [done|].
  apply not_elem_of_cons in Hx as [Hne Hx]. cbn.
  rewrite decide_False by done. by rewrite IH.
Qed.

(** X3.  When the store rejects a statement that is not in the sequence
    it was sent, [statements.remove] fails: [publish] logs the rejection
    and raises [ValueError] after that one call. *)
Theorem publish_rejection_of_absent_statement (w : @World Statement Lrs)
    (k : Statement) (store' : Lrs) :
  cache_lock w = false ->
  cache w ≠ [] ->
  k ∉ cache w ->
  publish_statements (lrs w) (cache w)
    = (Some (XAPIBridgeStatementStorageError k), store') ->
  ∃ w',
    publish w =
      (Raise ValueError, w',
       [EvAcquire; EvTouch FCache; EvNet (cache w);
        EvLog (RejectedStatement k); EvRelease])
    ∧ cache w' = cache w.
Proof.
  intros Hlock Hne Hk Hreject. rewrite (publish_unfold w Hlock).
  unfold loop_bound. destruct (cache w) as [|s l] eqn:Hcache; [done|].
  cbn [publish_loop]. unfold bind at 1. rewrite publish_attempt_unfold.
  cbn [lrs set_cache_lock]. rewrite Hreject, (list_remove_absent k _ Hk).
  eexists. split; [reflexivity|]. done.
Qed.

Lemma list_remove_sublist x l r :
  list_remove x l = Some r -> r `sublist_of` l.
Proof.
  revert r. induction l as [|y l IH]; intros r; cbn; [done|].
  destruct (decide (y = x)).
  - intros [= ->]. by apply sublist_cons.
  - destruct (list_remove x l) as [r'|]; [|done].
    intros [= <-]. apply sublist_skip. by apply IH.
Qed.

(** Every pass of the loop submits what is left of the sequence. *)
Lemma publish_loop_calls fuel statements (w : @World Statement Lrs) :
  Forall (fun c => c ≠ [] ∧ c `sublist_of` statements)
    (net_calls (publish_loop fuel statements w).2).
Proof.
  revert statements w. induction fuel as [|fuel IH]; intros [|s l] w;
    try apply Forall_nil_2.
  cbn [publish_loop]. unfold bind. rewrite publish_attempt_unfold.
  destruct (publish_statements (lrs w) (s :: l)) as [[e|] l'].
  - destruct e; try (trace_simpl; by apply Forall_singleton).
    + destruct (bool_decide _); [|trace_simpl; by apply Forall_singleton].
      specialize (IH (s :: l)
                    (set_publish_retries (publish_retries w + 1) (set_lrs l' w))).
      destruct (publish_loop fuel _ _) as [[o w'] t']. trace_simpl.
      by apply Forall_cons.
    + destruct (list_remove statement (s :: l)) as [r|] eqn:Hrm;
        [|trace_simpl; by apply Forall_singleton].
      specialize (IH r (set_lrs l' w)).
      destruct (publish_loop fuel _ _) as [[o w'] t']. trace_simpl.
      apply Forall_cons_2; [done|].
      eapply Forall_impl; [exact IH|].
      intros c [Hc Hsub]. split; [done|].
      etrans; [exact Hsub|]. exact (list_remove_sublist _ _ _ Hrm).
  - destruct (published_spec (s :: l) (set_lrs l' w)) as (t & Hp & Hpc & _).
    rewrite Hp. trace_simpl. rewrite Hpc. by apply Forall_singleton.
Qed.

(** X4.  Whatever the store answers, [publish] only ever submits
    statements of the batch it found, in the order they have there, and
    never an empty sequence: every network call carries a non-empty
    subsequence of the batch. *)
Theorem publish_submits_subsequences_of_batch (w : @World Statement Lrs) :
  Forall (fun c => c ≠ [] ∧ c `sublist_of` cache w) (net_calls (publish w).2).
Proof.
  destruct (cache_lock w) eqn:Hlock.
  { unfold publish, with_cache_lock. rewrite Hlock. apply Forall_nil_2. }
  destruct (publish_of_loop w Hlock) as (-> & _).
  apply publish_loop_calls.
Qed.

Lemma publish_loop_calls_bounded fuel statements (w : @World Statement Lrs) :
  (length (net_calls (publish_loop fuel statements w).2)
   <= length statements
      + Z.to_nat (PUBLISH_MAX_RETRIES settings - publish_retries w + 1))%nat.
Proof.
  revert statements w. induction fuel as [|fuel IH]; intros [|s l] w;
    try (trace_simpl; lia).
  cbn [publish_loop]. unfold bind. rewrite publish_attempt_unfold.
  destruct (publish_statements (lrs w) (s :: l)) as [[e|] l'].
  - destruct e; try (trace_simpl; lia).
    + destruct (bool_decide _) eqn:Hr; [|trace_simpl; lia].
      apply bool_decide_eq_true_1 in Hr.
      specialize (IH (s :: l)
                    (set_publish_retries (publish_retries w + 1) (set_lrs l' w))).
      destruct (publish_loop fuel _ _) as [[o w'] t']. trace_simpl.
      cbn in IH. lia.
    + destruct (list_remove statement (s :: l)) as [r|] eqn:Hrm;
        [|trace_simpl; lia].
      specialize (IH r (set_lrs l' w)).
      apply list_remove_length in Hrm.
      destruct (publish_loop fuel _ _) as [[o w'] t']. trace_simpl.
      cbn in IH, Hrm. lia.
  - destruct (published_spec (s :: l) (set_lrs l' w)) as (t & Hp & Hpc & _).
    rewrite Hp. trace_simpl. rewrite Hpc. cbn. lia.
Qed.

(** X5.  The number of network calls of one [publish] is bounded: at
    most one per statement of the batch plus one per retry the counter
    still allows. *)
Theorem publish_attempts_bounded (w : @World Statement Lrs) :
  (length (net_calls (publish w).2)
   <= length (cache w)
      + Z.to_nat (PUBLISH_MAX_RETRIES settings - publish_retries w + 1))%nat.
Proof.
  destruct (cache_lock w) eqn:Hlock.
  { unfold publish, with_cache_lock. rewrite Hlock. trace_simpl. lia. }
  destruct (publish_of_loop w Hlock) as (-> & _).
  apply (publish_loop_calls_bounded _ _ (set_cache_lock true w)).
Qed.

Lemma publish_loop_counters fuel statements (w : @World Statement Lrs) :
  0 <= publish_retries w <= PUBLISH_MAX_RETRIES settings + 1 ->
  0 <= publish_retries (publish_loop fuel statements w).1.2
    <= PUBLISH_MAX_RETRIES settings + 1
  ∧ total_published_successfully w
    <= total_published_successfully (publish_loop fuel statements w).1.2
    <= total_published_successfully w + Z.of_nat (length statements).
Proof.
  revert statements w. induction fuel as [|fuel IH]; intros [|s l] w Hr;
    try (cbn; lia).
  cbn [publish_loop]. unfold bind. rewrite publish_attempt_unfold.
  destruct (publish_statements (lrs w) (s :: l)) as [[e|] l'].
  - destruct e; try (cbn; lia).
    + destruct (bool_decide _) eqn:Hle; [|cbn; lia].
      apply bool_decide_eq_true_1 in Hle.
      specialize (IH (s :: l)
                    (set_publish_retries (publish_retries w + 1) (set_lrs l' w))).
      destruct (publish_loop fuel _ _) as [[o w'] t'].
      cbn in IH |- *. apply IH. lia.
    + destruct (list_remove statement (s :: l)) as [r|] eqn:Hrm; [|cbn; lia].
      specialize (IH r (set_lrs l' w)).
      apply list_remove_length in Hrm.
      destruct (publish_loop fuel _ _) as [[o w'] t'].
      cbn in IH, Hrm |- *. specialize (IH Hr). lia.
  - destruct (published_spec (s :: l) (set_lrs l' w)) as (t & Hp & _).
    rewrite Hp. cbn. lia.
Qed.

(** X6.  [publish] keeps the counters in range, however it ends: a retry
    counter between zero and [PUBLISH_MAX_RETRIES + 1] stays there, and
    the lifetime counter never decreases and grows by no more than the
    size of the batch. *)
Theorem publish_keeps_counters_in_range (w : @World Statement Lrs) :
  cache_lock w = false ->
  0 <= publish_retries w <= PUBLISH_MAX_RETRIES settings + 1 ->
  0 <= publish_retries (publish w).1.2 <= PUBLISH_MAX_RETRIES settings + 1
  ∧ total_published_successfully w
    <= total_published_successfully (publish w).1.2
    <= total_published_successfully w + Z.of_nat (length (cache w)).
Proof.
  intros Hlock Hr.
  destruct (publish_of_loop w Hlock) as (_ & -> & ->).
  apply (publish_loop_counters _ _ (set_cache_lock true w)). exact Hr.
Qed.

(** *** The publish queue: further properties of [push] *)

Lemma publish_returns_cleared (w w' : @World Statement Lrs)
    (t : list (@event Statement)) :
  cache_lock w = false ->
  publish w = (Ret tt, w', t) ->
  cache w' = [] ∧ cache_lock w' = false.
Proof.
  intros Hlock Hpub. rewrite (publish_unfold w Hlock) in Hpub.
  destruct (publish_loop _ _ _) as [[[b|e| |] w1] t1]; try done.
  by injection Hpub as <- <-.
Qed.

(** X7.  After a [push] that returns, the batch is below the threshold:
    it holds fewer than [PUBLISH_MAX_PAYLOAD] statements, or none at all
    (a threshold of zero or less publishes every statement at once). *)
Theorem push_keeps_batch_below_threshold (stmt : Statement)
    (w w' : @World Statement Lrs) (t : list (@event Statement)) :
  push stmt w = (Ret tt, w', t) ->
  cache_lock w' = false
  ∧ (Z.of_nat (length (cache w')) < PUBLISH_MAX_PAYLOAD settings
     ∨ cache w' = []).
Proof.
  intros Hpush.
  destruct (cache_lock w) eqn:Hlock.
  { unfold push, bind, with_cache_lock in Hpush. by rewrite Hlock in Hpush. }
  rewrite (push_unfold stmt w Hlock) in Hpush.
  destruct (arm_timer_frame (appended stmt w)) as (Hcache & Hlk & _).
  destruct (bool_decide (PUBLISH_MAX_PAYLOAD settings <= _)) eqn:Hfull.
  - destruct (publish _) as [[o w2] t2] eqn:Hpub. cbn in Hpush.
    injection Hpush as -> -> _.
    destruct (publish_returns_cleared _ _ _ Hlk Hpub) as [Hempty Hfree].
    split; [done | by right].
  - apply bool_decide_eq_false_1 in Hfull. cbn in Hpush.
    injection Hpush as <- _. rewrite Hcache, Hlk.
    split; [done|]. left. cbn. lia.
Qed.

Lemma emits_publish_no_timer_start : emits not_timer_start publish.
Proof.
  unfold publish, cancel_publish_timer. repeat emits_step.
  all: eapply emits_weaken; [|apply emits_publish_loop].
  all: by intros [].
Qed.

(** X8.  [push] starts a timer exactly when the statement is the first
    of a batch and a positive wait is configured, and the timer it starts
    is a new one. *)
Theorem push_arms_timer_for_first_statement (stmt : Statement)
    (w : @World Statement Lrs) :
  cache_lock w = false ->
  ((∃ h, EvTimerStart h ∈ (push stmt w).2)
   ↔ cache w = [] ∧ 0 < PUBLISH_MAX_WAIT_TIME settings)
  ∧ (∀ h, EvTimerStart h ∈ (push stmt w).2 -> h = length (timers w)).
Proof.
  intros Hlock.
  assert (Hpub : ∀ w0 h, EvTimerStart h ∉ (publish w0).2).
  { intros w0 h Hin. pose proof (emits_publish_no_timer_start w0) as Hall.
    rewrite Forall_forall in Hall. exact (Hall _ Hin). }
  assert (Hwhere : ∀ h, EvTimerStart h ∈ (push stmt w).2
                        ↔ EvTimerStart h ∈ (arm_timer (appended stmt w)).2).
  { intros h. rewrite (push_unfold stmt w Hlock).
    assert (Hlast : EvTimerStart h ∉
              (if bool_decide (PUBLISH_MAX_PAYLOAD settings
                               <= Z.of_nat (length (cache w ++ [stmt])))
               then publish (arm_timer (appended stmt w)).1
               else (Ret tt, (arm_timer (appended stmt w)).1, [])).2).
    { destruct (bool_decide _); [apply Hpub | apply not_elem_of_nil]. }
    destruct (if bool_decide _ then _ else _) as [[o w2] t2].
    cbn in Hlast |- *. split.
    - intros Hin.
      repeat (apply elem_of_cons in Hin as [Hin|Hin]; [discriminate|]).
      apply elem_of_app in Hin as [Hin|Hin]; [|done].
      apply elem_of_app in Hin as [Hin|Hin]; [done|].
      apply elem_of_cons in Hin as [Hin|Hin]; [discriminate|].
      by apply elem_of_nil in Hin.
    - intros Hin. do 4 apply list_elem_of_further.
      apply elem_of_app. left. apply elem_of_app. by left. }
  assert (Harm : (bool_decide (length (cache (appended stmt w)) = 1%nat)
                  && bool_decide (0 < PUBLISH_MAX_WAIT_TIME settings) = true)
                 ↔ cache w = [] ∧ 0 < PUBLISH_MAX_WAIT_TIME settings).
  { rewrite andb_true_iff, !bool_decide_eq_true. cbn.
    rewrite length_app. cbn. rewrite <- length_zero_iff_nil.
    split; intros [? ?]; split; (done || lia). }
  split; [split|].
  - intros [h Hin]. apply Hwhere in Hin. apply Harm.
    unfold arm_timer in Hin. destruct (_ && _); [done|].
    by apply elem_of_nil in Hin.
  - intros Hfirst. apply Harm in Hfirst.
    exists (length (timers w)). apply Hwhere. unfold arm_timer.
    rewrite Hfirst. cbn. apply list_elem_of_further, list_elem_of_here.
  - intros h Hin. apply Hwhere in Hin. unfold arm_timer in Hin.
    destruct (_ && _); [|by apply elem_of_nil in Hin].
    cbn in Hin. rewrite !elem_of_cons, elem_of_nil in Hin.
    destruct Hin as [Hin | [Hin | []]]; [done | by injection Hin].
Qed.

(** A [push] to a store that accepts whatever it is sent. *)
Lemma push_to_accepting_store (stmt : Statement) (w : @World Statement Lrs) :
  (∀ store l, (publish_statements store l).1 = None) ->
  cache_lock w = false ->
  ∃ w' t,
    push stmt w = (Ret tt, w', t)
    ∧ concat (net_calls t) ++ cache w' = cache w ++ [stmt]
    ∧ cache_lock w' = false.
Proof.
  intros Hok Hlock. rewrite (push_unfold stmt w Hlock).
  destruct (arm_timer_frame (appended stmt w)) as (Hcache & Hlk & Hcalls).
  destruct (bool_decide (PUBLISH_MAX_PAYLOAD settings <= _)).
  - rewrite (publish_unfold _ Hlk), Hcache.
    cbn [cache appended set_cache_lock set_cache].
    destruct (publish_loop_recovers 0
                (loop_bound (cache w ++ [stmt])
                   (publish_retries (arm_timer (appended stmt w)).1))
                (cache w ++ [stmt])
                (set_cache_lock true (arm_timer (appended stmt w)).1))
      as (w1 & t1 & Hloop & Hc1 & _).
    { by destruct (cache w). }
    { apply Hok. }
    { lia. }
    { unfold loop_bound. lia. }
    rewrite Hloop. eexists _, _. split; [reflexivity|].
    split; [|done]. trace_simpl. rewrite Hcalls, Hc1. cbn.
    destruct (publish_timer w1); trace_simpl; by rewrite !app_nil_r.
  - eexists _, _. split; [reflexivity|].
    split; [|by rewrite Hlk]. trace_simpl. by rewrite Hcalls, Hcache.
Qed.

Lemma pushes_to_accepting_store (l : list Statement)
    (w : @World Statement Lrs) :
  (∀ store l0, (publish_statements store l0).1 = None) ->
  cache_lock w = false ->
  ∃ w' t,
    for_each push l w = (Ret tt, w', t)
    ∧ concat (net_calls t) ++ cache w' = cache w ++ l
    ∧ cache_lock w' = false.
Proof.
  intros Hok. revert w. induction l as [|s l IH]; intros w Hlock.
  - eexists _, _. split; [reflexivity|]. by rewrite app_nil_r.
  - destruct (push_to_accepting_store s w Hok Hlock)
      as (w1 & t1 & Hpush & Hsent1 & Hlock1).
    destruct (IH w1 Hlock1) as (w2 & t2 & Hrest & Hsent2 & Hlock2).
    cbn [for_each]. unfold bind. rewrite Hpush, Hrest.
    eexists _, _. split; [reflexivity|].
    split; [|done]. trace_simpl.
    rewrite concat_app, <- app_assoc, Hsent2, app_assoc, Hsent1.
    by rewrite <- app_assoc.
Qed.

(** X9.  Pushed to a store that accepts whatever it is sent, statements
    are neither lost, nor sent twice, nor reordered: after any run of
    pushes, what has been submitted, call after call, followed by what is
    still in the batch is what was in the batch before followed by the
    statements pushed. *)
Theorem pushes_reach_accepting_store_in_order (l : list Statement)
    (w : @World Statement Lrs) :
  (∀ store l0, (publish_statements store l0).1 = None) ->
  cache_lock w = false ->
  (for_each push l w).1.1 = Ret tt
  ∧ concat (net_calls (for_each push l w).2) ++ cache (for_each push l w).1.2
    = cache w ++ l
  ∧ length (concat (net_calls (for_each push l w).2))
    = (length (cache w) + length l - length (cache (for_each push l w).1.2))%nat.
Proof.
  intros Hok Hlock.
  destruct (pushes_to_accepting_store l w Hok Hlock)
    as (w' & t & Hrun & Hsent & _).
  rewrite Hrun. cbn [fst snd].
  split; [done|]. split; [exact Hsent|].
  apply (f_equal length) in Hsent. rewrite !length_app in Hsent. lia.
Qed.

(** *** Converter dispatch: further properties *)

Lemma to_xapi_pure (evt : json) (w w0 : @World Statement Lrs) :
  (to_xapi evt w).1.2 = w
  ∧ (to_xapi evt w).2 = []
  ∧ (to_xapi evt w).1.1 = (to_xapi evt w0).1.1.
Proof.
  destruct evt as [| | | |l|d]; try done.
  unfold to_xapi, getitem.
  destruct (d !! "event_type") as [v|]; [|done]. rewrite !bind_ret.
  unfold call_replace. destruct v; try done. rewrite !bind_ret.
  destruct (bool_decide _); [done|].
  destruct (TRACKING_EVENTS_TO_XAPI_STATEMENT_MAP !! _) as [c|]; [|done].
  unfold try_except, bind, call_constructor.
  destruct (construct c _) as [st|e]; cbn.
  - by destruct (hasattr_version st).
  - by destruct e.
Qed.

(** X11.  A record without a string [event_type] makes [to_xapi] raise:
    [TypeError] when the decoded value is not an object, [KeyError] when
    the object has no [event_type], [AttributeError] when the [event_type]
    is not a string. *)
Theorem to_xapi_rejects_records_without_event_type (evt : json)
    (w : @World Statement Lrs) :
  (∀ d raw, evt = JObj d -> d !! "event_type" ≠ Some (JStr raw)) ->
  ∃ e,
    to_xapi evt w = (Raise e, w, [])
    ∧ match evt with
      | JObj d =>
          match d !! "event_type" with
          | None => e = KeyError
          | Some _ => e = AttributeError
          end
      | _ => e = TypeError
      end.
Proof.
  intros Hbad. destruct evt as [| | | |l|d]; try (by eexists).
  unfold to_xapi, getitem.
  destruct (d !! "event_type") as [v|] eqn:Hd; [|by eexists].
  rewrite bind_ret. unfold call_replace.
  destruct v as [| | |s| |]; try (by eexists).
  by destruct (Hbad d s eq_refl).
Qed.

(** The keys of the table do not contain the wrapper string. *)
Lemma table_keys_are_bare :
  map_Forall (fun k _ => str_replace k "xblock-video." "" = k)
    TRACKING_EVENTS_TO_XAPI_STATEMENT_MAP.
Proof. apply (bool_decide_unpack _). vm_compute. exact I. Qed.

(** X12.  Every registered event type reaches its own constructor, bare
    or under the wrapper prefix: unless the type is ignored, [to_xapi]
    calls the constructor registered for it and returns the statement it
    builds, provided the statement has a [version]. *)
Theorem to_xapi_dispatches_registered_types (d : gmap string json)
    (k raw : string) (c : statement_class) (statement : Statement)
    (w : @World Statement Lrs) :
  TRACKING_EVENTS_TO_XAPI_STATEMENT_MAP !! k = Some c ->
  raw = k ∨ raw = "xblock-video." +:+ k ->
  d !! "event_type" = Some (JStr raw) ->
  k ∉ IGNORED_EVENT_TYPES settings ->
  construct c (JObj d) = inl statement ->
  hasattr_version statement = true ->
  to_xapi (JObj d) w = (Ret (Some [statement]), w, []).
Proof.
  intros Hk Hraw Hd Hign Hbuilt Hver.
  assert (Hstrip : str_replace raw "xblock-video." "" = k).
  { pose proof (table_keys_are_bare k c Hk) as Hbare. cbn in Hbare.
    destruct Hraw as [-> | ->]; [done|].
    by rewrite str_replace_prefix. }
  rewrite (to_xapi_event_type d raw w Hd), Hstrip, Hk.
  rewrite bool_decide_eq_false_2 by done.
  unfold try_except, bind, call_constructor. rewrite Hbuilt. cbn.
  by rewrite Hver.
Qed.

(** An exception of a constructor other than the malformed-statement one
    passes through [to_xapi] as it is. *)
Lemma to_xapi_constructor_exception (d : gmap string json)
    (raw : string) (c : statement_class) (e : @exn Statement)
    (w : @World Statement Lrs) :
  d !! "event_type" = Some (JStr raw) ->
  str_replace raw "xblock-video." "" ∉ IGNORED_EVENT_TYPES settings ->
  TRACKING_EVENTS_TO_XAPI_STATEMENT_MAP !! str_replace raw "xblock-video." "" = Some c ->
  construct c (JObj d) = inr e ->
  e ≠ XAPIMalformedStatementError ->
  to_xapi (JObj d) w = (Raise e, w, []).
Proof.
  intros Hd Hign Hc Hbad He.
  rewrite (to_xapi_event_type d raw w Hd), Hc.
  rewrite bool_decide_eq_false_2 by done.
  unfold try_except, bind, call_constructor. rewrite Hbad. cbn.
  by destruct e.
Qed.

(** *** What a computation leaves alone *)

Lemma after_world {A} (t : list (@event Statement))
    (r : @outcome Statement A * @World Statement Lrs * list (@event Statement)) :
  (after t r).1.2 = r.1.2.
Proof. by destruct r as [[? ?] ?]. Qed.

Lemma keeps_bind {A B C} (proj : @World Statement Lrs -> C)
    (m : M A) (f : A -> M B) :
  keeps proj m -> (∀ a, keeps proj (f a)) -> keeps proj (bind m f).
Proof.
  intros Hm Hf w. unfold bind. specialize (Hm w).
  destruct (m w) as [[[a| | |] w1] t1]; try done.
  rewrite after_world. cbn in Hm. by rewrite Hf.
Qed.

Lemma keeps_try_except {A C} (proj : @World Statement Lrs -> C)
    (body : M A) handler :
  keeps proj body ->
  (∀ e h, handler e = Some h -> keeps proj h) ->
  keeps proj (try_except body handler).
Proof.
  intros Hb Hh w. unfold try_except. specialize (Hb w).
  destruct (body w) as [[[a|e| |] w1] t1]; try done.
  destruct (handler e) as [h|] eqn:He; [|done].
  rewrite after_world. cbn in Hb. by rewrite (Hh e h He).
Qed.

Lemma keeps_for_each {A C} (proj : @World Statement Lrs -> C)
    (f : A -> M unit) (l : list A) :
  (∀ a, keeps proj (f a)) -> keeps proj (for_each f l).
Proof.
  intros Hf. induction l as [|x l IH]; [done|].
  cbn. apply keeps_bind; [apply Hf | intros _; exact IH].
Qed.

Lemma keeps_raceBuffer_publish : keeps raceBuffer publish.
Proof.
  intros w. destruct (cache_lock w) eqn:Hlock.
  { unfold publish, with_cache_lock. by rewrite Hlock. }
  rewrite (publish_unfold w Hlock).
  destruct (publish_loop_frame (loop_bound (cache w) (publish_retries w))
              (cache w) (set_cache_lock true w)) as (_ & _ & Hrb).
  by destruct (publish_loop _ _ _) as [[[b|e| |] w1] t].
Qed.

Lemma keeps_raceBuffer_push stmt : keeps raceBuffer (push stmt).
Proof.
  intros w. destruct (cache_lock w) eqn:Hlock.
  { unfold push, bind, with_cache_lock. by rewrite Hlock. }
  rewrite (push_unfold stmt w Hlock), after_world.
  assert (Harm : raceBuffer (arm_timer (appended stmt w)).1 = raceBuffer w).
  { unfold arm_timer. by destruct (_ && _). }
  destruct (bool_decide _); [|done].
  by rewrite keeps_raceBuffer_publish.
Qed.

Lemma keeps_raceBuffer_process_line e : keeps raceBuffer (process_line e).
Proof.
  unfold process_line. destruct (json_loads e) as [evt|]; [|done].
  apply keeps_bind.
  - apply keeps_try_except.
    + apply keeps_bind; [done|]. intros _ w.
      by rewrite (proj1 (to_xapi_pure evt w w)).
    + intros ex h He. destruct ex; try done. by injection He as <-.
  - intros [l|]; [|done]. apply keeps_for_each, keeps_raceBuffer_push.
Qed.

Lemma race_buffer_last_char (new : string) (w : @World Statement Lrs) :
  last_char (raceBuffer (process_IN_MODIFY new w).1.2) ≠ Some newline.
Proof.
  unfold process_IN_MODIFY. rewrite bind_get.
  destruct (bool_decide (String.length _ ≠ 0%nat)); cbn [andb].
  - destruct (bool_decide (last_char _ ≠ _)) eqn:Hlast.
    + by apply bool_decide_eq_true_1 in Hlast.
    + rewrite bind_modify.
      by rewrite (keeps_for_each raceBuffer process_line _
                    keeps_raceBuffer_process_line).
  - rewrite bind_modify.
    by rewrite (keeps_for_each raceBuffer process_line _
                  keeps_raceBuffer_process_line).
Qed.

Lemma last_char_None (s : string) : last_char s = None -> s = EmptyString.
Proof.
  induction s as [|c s IH]; [done|]. cbn.
  destruct s; [done|]. intros Hs. by specialize (IH Hs).
Qed.

(** X13.  The RaceBuffer never ends in a line terminator: however a
    call of [process_IN_MODIFY] ends, what it leaves in the buffer is
    empty or an unfinished line. *)
Theorem race_buffer_never_ends_in_newline (new : string)
    (w : @World Statement Lrs) :
  raceBuffer (process_IN_MODIFY new w).1.2 = EmptyString
  ∨ (∃ c, last_char (raceBuffer (process_IN_MODIFY new w).1.2) = Some c
          ∧ c ≠ newline).
Proof.
  pose proof (race_buffer_last_char new w) as Hlast.
  destruct (last_char _) as [c|] eqn:Hc.
  - right. exists c. split; [done|]. by intros ->.
  - left. by apply last_char_None.
Qed.

Lemma string_app_empty_r (s : string) : s +:+ EmptyString = s.
Proof.
  induction s as [|c s IH]; [done|].
  change (String c (s +:+ EmptyString) = String c s). by rewrite IH.
Qed.

(** X14.  A notification that finds nothing new to read changes
    nothing: with a RaceBuffer that is empty or holds an unfinished line,
    an empty read returns at once, dispatches nothing and leaves the
    buffer as it was. *)
Theorem empty_read_is_noop (w : @World Statement Lrs) :
  last_char (raceBuffer w) ≠ Some newline ->
  process_IN_MODIFY EmptyString w
  = (Ret tt, set_raceBuffer (raceBuffer w) w, []).
Proof.
  intros Hlast. unfold process_IN_MODIFY.
  rewrite bind_get, string_app_empty_r.
  rewrite (bool_decide_eq_true_2 (last_char _ ≠ _) Hlast), andb_true_r.
  destruct (raceBuffer w) as [|c s] eqn:Hrb; [|done].
  rewrite bool_decide_eq_false_2 by (intros Hlen; by apply Hlen).
  by rewrite bind_modify.
Qed.

(** *** The tailer: lines *)

Lemma str_split_nonempty (sep : ascii) (s : string) : str_split sep s ≠ [].
Proof.
  destruct s as [|c s]; [done|]. cbn.
  destruct (Ascii.eqb c sep); [done|].
  by destruct (str_split sep s).
Qed.

Lemma str_join_split (sep : ascii) (s : string) :
  str_join sep (str_split sep s) = s.
Proof.
  induction s as [|c s IH]; [done|]. cbn [str_split].
  pose proof (str_split_nonempty sep s) as Hne.
  destruct (Ascii.eqb c sep) eqn:Hc.
  - apply Ascii.eqb_eq in Hc as ->.
    destruct (str_split sep s) as [|y ys]; [done|].
    change (str_join sep (EmptyString :: y :: ys))
      with (String sep (str_join sep (y :: ys))).
    by rewrite IH.
  - destruct (str_split sep s) as [|seg rest]; [done|].
    destruct rest as [|y ys]; cbn in IH |- *; by rewrite <- IH.
Qed.

Lemma str_split_segments (sep : ascii) (s : string) :
  Forall (fun seg => sep ∉ list_ascii_of_string seg) (str_split sep s).
Proof.
  induction s as [|c s IH]; cbn [str_split].
  - apply Forall_singleton. apply not_elem_of_nil.
  - destruct (Ascii.eqb c sep) eqn:Hc.
    + apply Forall_cons_2; [apply not_elem_of_nil | exact IH].
    + apply Ascii.eqb_neq in Hc.
      destruct (str_split sep s) as [|seg rest].
      * apply Forall_singleton. cbn. rewrite elem_of_cons, elem_of_nil.
        by intros [-> | []].
      * apply Forall_cons in IH as [Hseg Hrest].
        apply Forall_cons_2; [|exact Hrest].
        cbn. rewrite elem_of_cons. by intros [-> | Hin].
Qed.

(** X15.  The lines [process_IN_MODIFY] works on are whole lines: each
    is non-empty and holds no line terminator, and splitting loses none
    of the buffer - the segments joined by the terminator are the buffer
    again. *)
Theorem lines_are_whole_lines (buff : string) :
  Forall (fun e => e ≠ EmptyString ∧ newline ∉ list_ascii_of_string e)
    (lines_of buff)
  ∧ str_join newline (str_split newline buff) = buff.
Proof.
  split; [|apply str_join_split].
  unfold lines_of. apply Forall_forall. intros e He.
  apply list_elem_of_filter in He as [Hlen Hin]. split.
  - by intros ->.
  - pose proof (str_split_segments newline buff) as Hall.
    rewrite Forall_forall in Hall. by apply Hall.
Qed.

Lemma str_split_app (sep : ascii) (a b : string) :
  str_split sep (a +:+ String sep b) = str_split sep a ++ str_split sep b.
Proof.
  induction a as [|c a IH].
  - change (EmptyString +:+ String sep b) with (String sep b).
    cbn [str_split]. by rewrite Ascii.eqb_refl.
  - change (String c a +:+ String sep b) with (String c (a +:+ String sep b)).
    cbn [str_split]. rewrite IH.
    destruct (Ascii.eqb c sep); [done|].
    pose proof (str_split_nonempty sep a) as Hne.
    by destruct (str_split sep a).
Qed.

Lemma last_char_snoc (a : string) (c : ascii) :
  last_char a = Some c -> ∃ a0, a = a0 +:+ String c EmptyString.
Proof.
  induction a as [|x a IH]; [done|]. cbn.
  destruct a as [|y a].
  - intros [= ->]. by exists EmptyString.
  - intros Hlast. destruct (IH Hlast) as [a0 Ha0].
    exists (String x a0).
    change (String x a0 +:+ String c EmptyString)
      with (String x (a0 +:+ String c EmptyString)).
    by rewrite <- Ha0.
Qed.

Lemma last_char_app (a b : string) :
  b ≠ EmptyString -> last_char (a +:+ b) = last_char b.
Proof.
  intros Hb. induction a as [|x a IH]; [done|].
  change (String x a +:+ b) with (String x (a +:+ b)). cbn [last_char].
  destruct (a +:+ b) eqn:Hab; [|exact IH].
  destruct a; [cbn in Hab; by subst | done].
Qed.

(** The lines of a buffer that ends in a terminator, followed by those of
    what comes behind it. *)
Lemma lines_of_app (a b : string) :
  last_char a = Some newline ->
  lines_of (a +:+ b) = lines_of a ++ lines_of b.
Proof.
  intros Hlast. destruct (last_char_snoc a newline Hlast) as [a0 ->].
  rewrite string_app_assoc.
  change (String newline EmptyString +:+ b) with (String newline b).
  unfold lines_of. rewrite !str_split_app, !filter_app.
  change (filter _ (str_split newline EmptyString)) with (@nil string).
  by rewrite app_nil_r.
Qed.

Lemma bind_ext {A B} (m : M A) (f g : A -> M B) (w : @World Statement Lrs) :
  (∀ a w0, f a w0 = g a w0) -> bind m f w = bind m g w.
Proof.
  intros Hfg. unfold bind.
  destruct (m w) as [[[a| | |] w1] t1]; try done. by rewrite Hfg.
Qed.

Lemma for_each_app {A} (f : A -> M unit) (l1 l2 : list A)
    (w : @World Statement Lrs) :
  for_each f (l1 ++ l2) w = bind (for_each f l1) (fun _ => for_each f l2) w.
Proof.
  revert w. induction l1 as [|x l1 IH]; intros w.
  - cbn [for_each app]. by rewrite bind_ret.
  - cbn [for_each app]. rewrite bind_assoc.
    apply bind_ext. intros _ w0. apply IH.
Qed.

(** A read that completes its last line. *)
Lemma process_complete_read (new : string) (w : @World Statement Lrs) :
  last_char (raceBuffer w +:+ new) = Some newline ->
  process_IN_MODIFY new w
  = for_each process_line (lines_of (raceBuffer w +:+ new))
      (set_raceBuffer EmptyString w).
Proof.
  intros Hlast. unfold process_IN_MODIFY. rewrite bind_get.
  rewrite (bool_decide_eq_false_2 (last_char _ ≠ _)) by (by intros []).
  by rewrite andb_false_r, bind_modify.
Qed.

Lemma set_raceBuffer_same (w : @World Statement Lrs) :
  set_raceBuffer (raceBuffer w) w = w.
Proof. by destruct w. Qed.

(** X16.  Reads that end on a line boundary compose: two such reads,
    one after the other, do what one read of both pieces does - the same
    records dispatched, the same statements pushed, the same outcome. *)
Theorem complete_reads_compose (w : @World Statement Lrs) (r1 r2 : string) :
  last_char (raceBuffer w +:+ r1) = Some newline ->
  last_char r2 = Some newline ->
  bind (process_IN_MODIFY r1) (fun _ => process_IN_MODIFY r2) w
  = process_IN_MODIFY (r1 +:+ r2) w.
Proof.
  intros H1 H2.
  assert (Hr2 : r2 ≠ EmptyString) by (by intros ->).
  rewrite (process_complete_read (r1 +:+ r2) w)
    by (by rewrite <- string_app_assoc, last_char_app).
  rewrite <- string_app_assoc, (lines_of_app _ r2 H1), for_each_app.
  unfold bind. rewrite (process_complete_read r1 w H1).
  pose proof (keeps_for_each raceBuffer process_line
                (lines_of (raceBuffer w +:+ r1)) keeps_raceBuffer_process_line
                (set_raceBuffer EmptyString w)) as Hrb.
  destruct (for_each process_line _ (set_raceBuffer EmptyString w))
    as [[[[]|e| |] w1] t1]; try done.
  cbn in Hrb. f_equal.
  rewrite (process_complete_read r2 w1) by (by rewrite Hrb).
  rewrite Hrb.
  replace (set_raceBuffer EmptyString w1) with w1; [done|].
  rewrite <- Hrb. symmetry. apply set_raceBuffer_same.
Qed.

(** *** The tailer: records that fail *)

(** [process_line] on a line that decodes, by how [to_xapi] ends. *)
Lemma process_line_unfold (e : string) (evt_obj : json)
    (w : @World Statement Lrs) :
  json_loads e = Some evt_obj ->
  process_line e w =
    after [EvConvert evt_obj]
      match (to_xapi evt_obj w).1.1 with
      | Ret (Some l) => for_each push l w
      | Ret None => (Ret tt, w, [])
      | Raise XAPIBridgeStatementConversionError =>
          (Ret tt, w, [EvLog ConversionFailed])
      | Raise ex => (Raise ex, w, [])
      | Deadlock => (Deadlock, w, [])
      | OutOfFuel => (OutOfFuel, w, [])
      end.
Proof.
  intros Hjson. unfold process_line. rewrite Hjson.
  unfold bind at 1. rewrite try_except_emit. unfold try_except.
  destruct (to_xapi_pure evt_obj w w) as (Hw & Ht & _).
  destruct (to_xapi evt_obj w) as [[o w1] t1]. cbn in Hw, Ht. subst w1 t1.
  cbn [fst snd].
  destruct o as [[l|]|ex| |].
  - cbn. by destruct (for_each push l w) as [[o w2] t2].
  - done.
  - by destruct ex.
  - done.
  - done.
Qed.

(** X17.  A conversion error is contained: when the constructor of a
    record raises [XAPIBridgeStatementConversionError], the loop over the
    lines logs it, pushes nothing, leaves the state as it was and goes on
    with the next line. *)
Theorem conversion_error_is_skipped (e : string) (ls : list string)
    (d : gmap string json) (raw : string) (c : statement_class)
    (w : @World Statement Lrs) :
  json_loads e = Some (JObj d) ->
  d !! "event_type" = Some (JStr raw) ->
  str_replace raw "xblock-video." "" ∉ IGNORED_EVENT_TYPES settings ->
  TRACKING_EVENTS_TO_XAPI_STATEMENT_MAP !! str_replace raw "xblock-video." "" = Some c ->
  construct c (JObj d) = inr XAPIBridgeStatementConversionError ->
  for_each process_line (e :: ls) w
  = after [EvConvert (JObj d); EvLog ConversionFailed]
      (for_each process_line ls w).
Proof.
  intros Hjson Hd Hign Hc Hbad. cbn [for_each]. unfold bind.
  rewrite (process_line_unfold e (JObj d) w Hjson).
  rewrite (to_xapi_constructor_exception d raw c _ w Hd Hign Hc Hbad)
    by done.
  cbn. by destruct (for_each process_line ls w) as [[o w2] t2].
Qed.

(** X18.  An exception the loop does not catch ends the read where it
    is raised, and the lines behind are lost: they are not dispatched,
    and the RaceBuffer, cleared before the loop began, does not hold them
    for a later read. *)
Theorem uncaught_exception_drops_rest_of_read (new e : string)
    (l1 l2 : list string) (evt_obj : json) (ex : @exn Statement)
    (w w1 : @World Statement Lrs) (t1 : list (@event Statement)) :
  last_char (raceBuffer w +:+ new) = Some newline ->
  lines_of (raceBuffer w +:+ new) = l1 ++ e :: l2 ->
  for_each process_line l1 (set_raceBuffer EmptyString w) = (Ret tt, w1, t1) ->
  json_loads e = Some evt_obj ->
  (to_xapi evt_obj w1).1.1 = Raise ex ->
  ex ≠ XAPIBridgeStatementConversionError ->
  process_IN_MODIFY new w = (Raise ex, w1, t1 ++ [EvConvert evt_obj])
  ∧ raceBuffer w1 = EmptyString
  ∧ dispatched (t1 ++ [EvConvert evt_obj]) = omap json_loads (l1 ++ [e]).
Proof.
  intros Hlast Hlines Hfirst Hjson Hraise Hex.
  rewrite (process_complete_read new w Hlast), Hlines, for_each_app.
  unfold bind at 1. rewrite Hfirst. cbn [for_each]. unfold bind.
  rewrite (process_line_unfold e evt_obj w1 Hjson), Hraise.
  split; [by destruct ex|]. split.
  - pose proof (keeps_for_each raceBuffer process_line l1
                  keeps_raceBuffer_process_line
                  (set_raceBuffer EmptyString w)) as Hrb.
    by rewrite Hfirst in Hrb.
  - rewrite dispatched_app, omap_app.
    rewrite (process_lines_dispatched l1 _ _ _ Hfirst).
    cbn. by rewrite Hjson.
Qed.

(** *** The tailer: from the lines to the store *)

Lemma process_line_accepting (e : string) (w w0 : @World Statement Lrs) :
  (∀ store l, (publish_statements store l).1 = None) ->
  cache_lock w = false ->
  convertible w0 e ->
  ∃ w' t,
    process_line e w = (Ret tt, w', t)
    ∧ concat (net_calls t) ++ cache w' = cache w ++ converted w0 e
    ∧ cache_lock w' = false.
Proof.
  intros Hok Hlock. unfold convertible, converted.
  destruct (json_loads e) as [evt_obj|] eqn:Hjson.
  - rewrite (process_line_unfold e evt_obj w Hjson).
    destruct (to_xapi_pure evt_obj w w0) as (_ & _ & ->).
    destruct ((to_xapi evt_obj w0).1.1) as [[l|]|ex| |]; try done.
    + intros _.
      destruct (pushes_to_accepting_store l w Hok Hlock)
        as (w' & t & Hpush & Hsent & Hfree).
      rewrite Hpush. eexists _, _. split; [reflexivity|].
      split; [|done]. by trace_simpl.
    + intros _. eexists _, _. split; [reflexivity|].
      split; [|done]. trace_simpl. by rewrite app_nil_r.
    + destruct ex; try done. intros _.
      eexists _, _. split; [reflexivity|].
      split; [|done]. trace_simpl. by rewrite app_nil_r.
  - intros _. unfold process_line. rewrite Hjson.
    eexists _, _. split; [reflexivity|].
    split; [|done]. trace_simpl. by rewrite app_nil_r.
Qed.

Lemma process_lines_accepting (ls : list string) (w w0 : @World Statement Lrs) :
  (∀ store l, (publish_statements store l).1 = None) ->
  cache_lock w = false ->
  Forall (convertible w0) ls ->
  ∃ w' t,
    for_each process_line ls w = (Ret tt, w', t)
    ∧ concat (net_calls t) ++ cache w' = cache w ++ flat_map (converted w0) ls
    ∧ cache_lock w' = false.
Proof.
  intros Hok. revert w. induction ls as [|e ls IH]; intros w Hlock Hall.
  - eexists _, _. split; [reflexivity|]. by rewrite app_nil_r.
  - apply Forall_cons in Hall as [He Hall].
    destruct (process_line_accepting e w w0 Hok Hlock He)
      as (w1 & t1 & Hline & Hsent1 & Hlock1).
    destruct (IH w1 Hlock1 Hall) as (w2 & t2 & Hrest & Hsent2 & Hlock2).
    cbn [for_each]. unfold bind. rewrite Hline, Hrest.
    eexists _, _. split; [reflexivity|].
    split; [|done]. trace_simpl.
    rewrite concat_app, <- app_assoc, Hsent2, app_assoc, Hsent1.
    by rewrite <- app_assoc.
Qed.

(** X19.  From the log to the store: with a store that accepts whatever
    it is sent, a read that completes its last line and whose lines the
    loop gets past returns, and the statements converted from its lines
    are neither lost, nor sent twice, nor reordered - what has been
    submitted, call after call, followed by what is still in the batch is
    what was in the batch before followed by the statements of the lines,
    in the order of the lines. *)
Theorem complete_read_reaches_store_in_order (new : string)
    (w : @World Statement Lrs) :
  (∀ store l, (publish_statements store l).1 = None) ->
  cache_lock w = false ->
  last_char (raceBuffer w +:+ new) = Some newline ->
  Forall (convertible w) (lines_of (raceBuffer w +:+ new)) ->
  ∃ w' t,
    process_IN_MODIFY new w = (Ret tt, w', t)
    ∧ concat (net_calls t) ++ cache w'
      = cache w ++ flat_map (converted w) (lines_of (raceBuffer w +:+ new))
    ∧ raceBuffer w' = EmptyString.
Proof.
  intros Hok Hlock Hlast Hall.
  rewrite (process_complete_read new w Hlast).
  destruct (process_lines_accepting (lines_of (raceBuffer w +:+ new))
              (set_raceBuffer EmptyString w) w Hok Hlock Hall)
    as (w' & t & Hrun & Hsent & _).
  pose proof (keeps_for_each raceBuffer process_line
                (lines_of (raceBuffer w +:+ new))
                keeps_raceBuffer_process_line
                (set_raceBuffer EmptyString w)) as Hrb.
  rewrite Hrun in Hrb |- *.
  by exists w', t.
Qed.

(** *** The tailer: leaving the session *)

(** X20.  Leaving the session flushes the queue: with a store that
    accepts whatever it is sent, [__exit__] returns having submitted
    exactly the pending batch, in one call when there is one, and leaves
    the batch empty and the timer [publish_timer] refers to not armed. *)
Theorem exit_flushes_the_batch (w : @World Statement Lrs) :
  (∀ store l, (publish_statements store l).1 = None) ->
  cache_lock w = false ->
  ∃ w' t,
    __exit__ w = (Ret tt, w', t)
    ∧ net_calls t = (if decide (cache w = []) then [] else [cache w])
    ∧ cache w' = []
    ∧ (∀ h, publish_timer w' = Some h -> timers w' !! h ≠ Some Armed).
Proof.
  intros Hok Hlock. unfold __exit__, destroy, bind.
  rewrite (publish_unfold w Hlock).
  assert (Hloop : ∃ b w1 t1,
             publish_loop (loop_bound (cache w) (publish_retries w)) (cache w)
               (set_cache_lock true w) = (Ret b, w1, t1)
             ∧ net_calls t1 = (if decide (cache w = []) then [] else [cache w])).
  { destruct (decide (cache w = [])) as [Hempty | Hne].
    - rewrite Hempty, publish_loop_nil. by eexists _, _, _.
    - destruct (publish_loop_recovers 0
                  (loop_bound (cache w) (publish_retries w)) (cache w)
                  (set_cache_lock true w) Hne)
        as (w1 & t1 & Hrun & Hcalls & _).
      + apply Hok.
      + lia.
      + unfold loop_bound. lia.
      + by eexists _, _, _. }
  destruct Hloop as (b & w1 & t1 & -> & Hcalls).
  unfold cancel_publish_timer. rewrite bind_read_field.
  cbn [publish_timer set_cache_lock set_timers set_cache].
  destruct (publish_timer w1) as [h|] eqn:Htimer.
  - rewrite bind_modify. eexists _, _. split; [reflexivity|].
    split; [|split; [done|]].
    + trace_simpl. by rewrite !app_nil_r.
    + cbn. rewrite Htimer. intros h0 [= <-]. unfold cancelled_timers.
      rewrite Htimer.
      destruct (decide (h < length (timers w1))%nat) as [Hh|Hh].
      * rewrite list_lookup_insert_eq; [done|].
        by rewrite length_insert.
      * rewrite (list_insert_ge (timers w1)) by lia.
        rewrite list_insert_ge by lia.
        rewrite lookup_ge_None_2; [done | lia].
  - eexists _, _. split; [reflexivity|].
    split; [|split; [done|]].
    + trace_simpl. by rewrite !app_nil_r.
    + cbn. by rewrite Htimer.
Qed.

(** *** The publish queue: timers *)

Lemma timers_tracked_pushes (l : list Statement) (w w' : @World Statement Lrs)
    (t : list (@event Statement)) :
  cache_lock w = false ->
  timers_tracked w ->
  for_each push l w = (Ret tt, w', t) ->
  timers_tracked w' ∧ cache_lock w' = false.
Proof.
  revert w t. induction l as [|s l IH]; intros w t Hlock Hinv Hrun.
  - by injection Hrun as <- _.
  - cbn [for_each] in Hrun. unfold bind in Hrun.
    destruct (push s w) as [[[[]|e| |] w1] t1] eqn:Hpush; try done.
    destruct (timers_tracked_push s w w1 t1 Hlock Hinv Hpush) as [Hinv1 Hlock1].
    destruct (for_each push l w1) as [[o w2] t2] eqn:Hrest.
    cbn in Hrun. injection Hrun as -> -> _.
    exact (IH w1 t2 Hlock1 Hinv1 Hrest).
Qed.

(** X21.  A queue used from one thread never has two timers armed:
    after any run of pushes into a new queue, a timer that is armed is
    the one [publish_timer] refers to, and the batch it waits for is not
    empty. *)
Theorem pushes_keep_one_timer (l : list Statement) (store : Lrs)
    (w' : @World Statement Lrs) (t : list (@event Statement)) :
  for_each push l (new_session store) = (Ret tt, w', t) ->
  (∀ h1 h2, timers w' !! h1 = Some Armed -> timers w' !! h2 = Some Armed ->
            h1 = h2)
  ∧ (∀ h, timers w' !! h = Some Armed ->
          publish_timer w' = Some h ∧ cache w' ≠ []).
Proof.
  intros Hrun.
  destruct (timers_tracked_pushes l (new_session store) w' t eq_refl
              (timers_tracked_new_session store) Hrun) as [Hinv _].
  split; [|exact Hinv].
  intros h1 h2 H1 H2.
  destruct (Hinv h1 H1) as [Href1 _]. destruct (Hinv h2 H2) as [Href2 _].
  rewrite Href1 in Href2. by injection Href2.
Qed.

End Bridge.

(** ** The properties on concrete sessions *)

Local Close Scope Z_scope.

Lemma to_xapi_ignored_or_unknown_witness :
  ({[ "event_type" := JStr "page_close" ]} : gmap string json) !! "event_type"
    = Some (JStr "page_close")
  ∧ to_xapi constant_constructor (fun _ => true) example_settings
      (JObj {[ "event_type" := JStr "page_close" ]}) (new_session tt)
    = (Ret None, new_session tt, []).
Proof.
  assert (Hd : ({[ "event_type" := JStr "page_close" ]} : gmap string json)
                 !! "event_type" = Some (JStr "page_close"))
    by (vm_compute; reflexivity).
  split; [exact Hd|].
  destruct (to_xapi_ignored_or_unknown constant_constructor (fun _ => true)
              example_settings _ "page_close" (new_session tt) Hd)
    as [Hskip _].
  apply Hskip. left. apply (bool_decide_unpack _). vm_compute. exact I.
Defined.

(** C8, as the code has it.  Line 50 means to strip the wrapper prefix,
    but [str.replace] removes the wrapper string wherever it stands.  The
    event type [play_xblock-video.video] has no prefix to strip, is not
    ignored and has no constructor of its own, so the record should yield
    nothing; [to_xapi] looks up [play_video] instead and returns the
    statement built by the constructor registered for it. *)
Lemma to_xapi_strips_inside_event_type :
  TRACKING_EVENTS_TO_XAPI_STATEMENT_MAP
    !! strip_prefix "xblock-video." "play_xblock-video.video" = None
  ∧ (strip_prefix "xblock-video." "play_xblock-video.video"
     ∉ IGNORED_EVENT_TYPES example_settings)
  ∧ to_xapi constant_constructor (fun _ => true) example_settings
      (JObj {[ "event_type" := JStr "play_xblock-video.video" ]})
      (new_session tt)
    = (Ret (Some [7]), new_session tt, []).
Proof.
  split; [vm_compute; reflexivity|]. split.
  - apply (bool_decide_unpack _). vm_compute. exact I.
  - vm_compute. reflexivity.
Qed.

Lemma to_xapi_at_most_one_statement_witness :
  to_xapi constant_constructor (fun _ => true) example_settings
      play_video_record (new_session tt)
    = (Ret (Some [7]), new_session tt, [])
  ∧ (∃ (c : statement_class) (s : nat),
       constant_constructor c play_video_record = inl s ∧ [7] = [s])
  ∧ TRACKING_EVENTS_TO_XAPI_STATEMENT_MAP
      !! str_replace "xblock-video.play_video" "xblock-video." ""
      = Some VideoPlayStatement
  ∧ to_xapi constant_constructor (fun _ => false) example_settings
      play_video_record (new_session tt)
    = (Ret None, new_session tt, []).
Proof.
  assert (Hrun : to_xapi constant_constructor (fun _ => true) example_settings
                   play_video_record (new_session tt)
                 = (Ret (Some [7]), new_session tt, []))
    by (vm_compute; reflexivity).
  assert (Hc : TRACKING_EVENTS_TO_XAPI_STATEMENT_MAP
                 !! str_replace "xblock-video.play_video" "xblock-video." ""
               = Some VideoPlayStatement)
    by (vm_compute; reflexivity).
  assert (Hd : ({[ "event_type" := JStr "xblock-video.play_video" ]}
                  : gmap string json) !! "event_type"
               = Some (JStr "xblock-video.play_video"))
    by (vm_compute; reflexivity).
  split; [exact Hrun|]. split; [|split; [exact Hc|]].
  - pose proof (proj1 (to_xapi_at_most_one_statement constant_constructor
                         (fun _ => true) example_settings)
                  play_video_record (new_session tt)) as Hone.
    rewrite Hrun in Hone. destruct Hone as (c & s & Hbuilt & _ & Hl).
    exists c, s. split; [exact Hbuilt | exact Hl].
  - exact (proj2 (to_xapi_at_most_one_statement constant_constructor
                    (fun _ => false) example_settings)
             _ _ VideoPlayStatement 7 (new_session tt) Hd Hc eq_refl eq_refl).
Defined.

Lemma to_xapi_malformed_statement_escapes_witness :
  malformed_constructor VideoPlayStatement play_video_record
    = inr XAPIMalformedStatementError
  ∧ to_xapi malformed_constructor (fun _ => true) example_settings
      play_video_record (new_session tt)
    = (Raise UnboundLocalError, new_session tt, []).
Proof.
  split; [reflexivity|].
  assert (Hd : ({[ "event_type" := JStr "xblock-video.play_video" ]}
                  : gmap string json) !! "event_type"
               = Some (JStr "xblock-video.play_video"))
    by (vm_compute; reflexivity).
  apply (to_xapi_malformed_statement_escapes malformed_constructor
           (fun _ => true) example_settings _ _ VideoPlayStatement
           (new_session tt) Hd).
  - apply (bool_decide_unpack _). vm_compute. exact I.
  - vm_compute. reflexivity.
  - reflexivity.
Defined.

Lemma publish_empty_batch_is_noop_witness :
  cache (new_session (Statement:=nat) tt) = []
  ∧ (publish accepting_store example_settings (new_session tt)).1.1 = Ret tt
  ∧ net_calls (publish accepting_store example_settings (new_session tt)).2 = [].
Proof.
  split; [reflexivity|].
  destruct (publish_empty_batch_is_noop accepting_store example_settings
              (new_session tt) eq_refl eq_refl)
    as (w' & t & Hpub & Hcalls & _).
  rewrite Hpub. split; [reflexivity | exact Hcalls].
Defined.

Lemma publish_clears_batch_and_timer_witness :
  (publish accepting_store example_settings
     (set_cache [1; 2] (new_session tt))).1.1 = Ret tt
  ∧ cache (publish accepting_store example_settings
             (set_cache [1; 2] (new_session tt))).1.2 = [].
Proof.
  split; [vm_compute; reflexivity|].
  apply (publish_clears_batch_and_timer accepting_store example_settings
           (set_cache [1; 2] (new_session tt)) _
           (publish accepting_store example_settings
              (set_cache [1; 2] (new_session tt))).2).
  vm_compute. reflexivity.
Defined.

Lemma publish_retry_exhaustion_witness :
  PUBLISH_MAX_RETRIES example_settings = 3%Z
  ∧ (publish unreachable_store example_settings
       (set_cache [1] (new_session tt))).1.1 = Raise SystemExit
  ∧ net_calls (publish unreachable_store example_settings
                 (set_cache [1] (new_session tt))).2
    = [[1]; [1]; [1]; [1]; [1]].
Proof.
  split; [reflexivity|].
  destruct (publish_retry_exhaustion unreachable_store example_settings
              (set_cache [1] (new_session tt)))
    as (w' & t & Hpub & Hcalls & _).
  - intros store l. reflexivity.
  - discriminate.
  - reflexivity.
  - reflexivity.
  - vm_compute. discriminate.
  - rewrite Hpub. split; [reflexivity | exact Hcalls].
Defined.

Lemma publish_drops_rejected_statement_witness :
  scripted_store [Some (XAPIBridgeStatementStorageError 2); None] [1; 2; 3]
    = (Some (XAPIBridgeStatementStorageError 2), [None])
  ∧ net_calls (publish scripted_store example_settings
                 (set_cache [1; 2; 3]
                    (new_session
                       [Some (XAPIBridgeStatementStorageError 2); None]))).2
    = [[1; 2; 3]; [1; 3]].
Proof.
  split; [reflexivity|].
  destruct (publish_drops_rejected_statement scripted_store example_settings
              (set_cache [1; 2; 3]
                 (new_session [Some (XAPIBridgeStatementStorageError 2); None]))
              2 [1] [3] [None] [])
    as (w' & t & Hpub & Hcalls & _).
  - reflexivity.
  - reflexivity.
  - apply (bool_decide_unpack _). vm_compute. exact I.
  - discriminate.
  - reflexivity.
  - reflexivity.
  - rewrite Hpub. exact Hcalls.
Defined.

Lemma push_publishes_full_batch_witness :
  Z.of_nat (length ([1; 2] ++ [3])) = PUBLISH_MAX_PAYLOAD example_settings
  ∧ ∃ w1 rest,
      (for_each (push accepting_store example_settings) [1; 2]
         (new_session tt)).1.2 = w1
      ∧ net_calls (push accepting_store example_settings 3 w1).2
        = [1; 2; 3] :: rest.
Proof.
  split; [reflexivity|].
  destruct (push_publishes_full_batch accepting_store example_settings
              [1; 2] 3 (new_session tt) eq_refl eq_refl eq_refl)
    as (w1 & t1 & Hpush & _ & _ & rest & Hcall).
  exists w1, rest. rewrite Hpush. split; [reflexivity | exact Hcall].
Defined.

Lemma queue_lock_coverage_witness :
  cache_lock (new_session (Statement:=nat) tt) = false
  ∧ locked_accesses false
      (publish accepting_store example_settings (new_session (Statement:=nat) tt)).2
    = true.
Proof.
  split; [reflexivity|].
  exact (proj1 (queue_lock_coverage accepting_store example_settings 1
                  (new_session tt) eq_refl)).
Defined.

(** The lock is not held when [push] reads the length of the batch. *)
Lemma push_reads_length_unlocked :
  locked_accesses false
    (push accepting_store example_settings 1 (new_session tt)).2 = false.
Proof. vm_compute. reflexivity. Qed.

Lemma partial_line_is_buffered_witness :
  last_char (raceBuffer (new_session (Statement:=nat) tt) +:+ first_read)
    ≠ Some newline
  ∧ dispatched
      (process_IN_MODIFY accepting_store constant_constructor (fun _ => true)
         event_type_decoder example_settings first_read (new_session tt)).2
    = [].
Proof.
  assert (Hlast : last_char (raceBuffer (new_session (Statement:=nat) (Lrs:=unit) tt)
                             +:+ first_read) ≠ Some newline)
    by (vm_compute; discriminate).
  split; [exact Hlast|].
  destruct (partial_line_is_buffered accepting_store constant_constructor
              (fun _ => true) event_type_decoder example_settings
              (new_session tt) first_read)
    as [Hfirst _].
  - vm_compute. discriminate.
  - exact Hlast.
  - rewrite Hfirst. reflexivity.
Defined.

(** After the first read the RaceBuffer holds both the complete line and
    the fragment, not the fragment alone. *)
Lemma race_buffer_keeps_complete_lines :
  raceBuffer
    (process_IN_MODIFY accepting_store constant_constructor (fun _ => true)
       event_type_decoder example_settings first_read (new_session tt)).1.2
  ≠ trailing_segment (raceBuffer (new_session (Statement:=nat) (Lrs:=unit) tt)
                      +:+ first_read).
Proof. vm_compute. discriminate. Qed.

(** ** Further properties on concrete sessions *)

Lemma publish_recovers_from_connection_errors_witness :
  fails_then_accepts scripted_store 2 flaky_script [1; 2]
  ∧ net_calls (publish scripted_store example_settings
                 (set_cache [1; 2] (new_session flaky_script))).2
    = [[1; 2]; [1; 2]; [1; 2]].
Proof.
  assert (Hstore : fails_then_accepts scripted_store 2 flaky_script [1; 2])
    by (repeat split).
  split; [exact Hstore|].
  destruct (publish_recovers_from_connection_errors scripted_store
              example_settings 2 (set_cache [1; 2] (new_session flaky_script)))
    as (w' & t & Hpub & Hcalls & _).
  - reflexivity.
  - discriminate.
  - exact Hstore.
  - vm_compute. discriminate.
  - rewrite Hpub. exact Hcalls.
Defined.

Lemma publish_failure_keeps_batch_witness :
  (publish unreachable_store example_settings
     (set_cache [1] (new_session tt))).1.1 = Raise SystemExit
  ∧ cache (publish unreachable_store example_settings
             (set_cache [1] (new_session tt))).1.2 = [1].
Proof.
  split; [vm_compute; reflexivity|].
  apply (publish_failure_keeps_batch unreachable_store example_settings
           (set_cache [1] (new_session tt)) _ SystemExit
           (publish unreachable_store example_settings
              (set_cache [1] (new_session tt))).2).
  vm_compute. reflexivity.
Defined.

Lemma publish_rejection_of_absent_statement_witness :
  (9 ∉ [1; 2])
  ∧ (publish scripted_store example_settings
       (set_cache [1; 2]
          (new_session [Some (XAPIBridgeStatementStorageError 9)]))).1.1
    = Raise ValueError.
Proof.
  assert (Habsent : 9 ∉ [1; 2])
    by (apply (bool_decide_unpack _); vm_compute; exact I).
  split; [exact Habsent|].
  destruct (publish_rejection_of_absent_statement scripted_store
              example_settings
              (set_cache [1; 2]
                 (new_session [Some (XAPIBridgeStatementStorageError 9)]))
              9 [])
    as (w' & Hpub & _).
  - reflexivity.
  - discriminate.
  - exact Habsent.
  - reflexivity.
  - by rewrite Hpub.
Defined.

Lemma publish_keeps_counters_in_range_witness :
  (0 <= publish_retries (set_cache [1%nat] (new_session (Lrs:=unit) tt))
   <= PUBLISH_MAX_RETRIES example_settings + 1)%Z
  ∧ (publish_retries
       (publish unreachable_store example_settings
          (set_cache [1%nat] (new_session tt))).1.2
     <= PUBLISH_MAX_RETRIES example_settings + 1)%Z.
Proof.
  assert (Hrange :
    (0 <= publish_retries (set_cache [1%nat] (new_session (Lrs:=unit) tt))
     <= PUBLISH_MAX_RETRIES example_settings + 1)%Z)
    by (vm_compute; split; discriminate).
  split; [exact Hrange|].
  apply (publish_keeps_counters_in_range unreachable_store example_settings
           (set_cache [1%nat] (new_session tt)) eq_refl Hrange).
Defined.

Lemma push_keeps_batch_below_threshold_witness :
  (push accepting_store example_settings 1 (new_session tt)).1.1 = Ret tt
  ∧ cache_lock
      (push accepting_store example_settings 1 (new_session tt)).1.2 = false.
Proof.
  split; [vm_compute; reflexivity|].
  apply (push_keeps_batch_below_threshold accepting_store example_settings 1
           (new_session tt) _
           (push accepting_store example_settings 1 (new_session tt)).2).
  vm_compute. reflexivity.
Defined.

Lemma push_arms_timer_for_first_statement_witness :
  cache_lock (new_session (Statement:=nat) (Lrs:=unit) tt) = false
  ∧ ∃ h, EvTimerStart h
         ∈ (push accepting_store example_settings 1 (new_session tt)).2.
Proof.
  split; [reflexivity|].
  apply (proj1 (push_arms_timer_for_first_statement accepting_store
                  example_settings 1 (new_session tt) eq_refl)).
  split; [reflexivity | vm_compute; reflexivity].
Defined.

Lemma pushes_reach_accepting_store_in_order_witness :
  cache_lock (new_session (Statement:=nat) (Lrs:=unit) tt) = false
  ∧ ∃ w' t,
      for_each (push accepting_store example_settings) [1; 2; 3; 4]
        (new_session tt) = (Ret tt, w', t)
      ∧ concat (net_calls t) ++ cache w' = [1; 2; 3; 4].
Proof.
  split; [reflexivity|].
  destruct (pushes_reach_accepting_store_in_order accepting_store
              example_settings [1; 2; 3; 4] (new_session tt))
    as (Hrun & Hsent & _).
  - intros store l0. reflexivity.
  - reflexivity.
  - eexists _, _. split; [|exact Hsent]. vm_compute. reflexivity.
Defined.

Lemma to_xapi_rejects_records_without_event_type_witness :
  (∅ : gmap string json) !! "event_type" = None
  ∧ ∃ e, to_xapi constant_constructor (fun _ => true) example_settings
           (JObj ∅) (new_session tt)
         = (Raise e, new_session tt, []).
Proof.
  split; [reflexivity|].
  destruct (to_xapi_rejects_records_without_event_type constant_constructor
              (fun _ => true) example_settings (JObj ∅) (new_session tt))
    as (e & Hraise & _).
  - intros d raw [= <-]. discriminate.
  - by exists e.
Defined.

Lemma to_xapi_dispatches_registered_types_witness :
  TRACKING_EVENTS_TO_XAPI_STATEMENT_MAP !! "play_video" = Some VideoPlayStatement
  ∧ to_xapi constant_constructor (fun _ => true) example_settings
      play_video_record (new_session tt)
    = (Ret (Some [7]), new_session tt, []).
Proof.
  assert (Hk : TRACKING_EVENTS_TO_XAPI_STATEMENT_MAP !! "play_video"
               = Some VideoPlayStatement)
    by (vm_compute; reflexivity).
  split; [exact Hk|].
  apply (to_xapi_dispatches_registered_types constant_constructor
           (fun _ => true) example_settings _ "play_video"
           "xblock-video.play_video" VideoPlayStatement 7 (new_session tt) Hk).
  - by right.
  - vm_compute. reflexivity.
  - apply (bool_decide_unpack _). vm_compute. exact I.
  - reflexivity.
  - reflexivity.
Defined.

Lemma empty_read_is_noop_witness :
  raceBuffer (new_session (Statement:=nat) (Lrs:=unit) tt) = EmptyString
  ∧ (process_IN_MODIFY accepting_store constant_constructor (fun _ => true)
       event_type_decoder example_settings EmptyString (new_session tt)).2
    = [].
Proof.
  split; [reflexivity|].
  rewrite (empty_read_is_noop accepting_store constant_constructor
             (fun _ => true) event_type_decoder example_settings
             (new_session tt)).
  - reflexivity.
  - discriminate.
Defined.

Lemma complete_reads_compose_witness :
  last_char second_line = Some newline
  ∧ bind (process_IN_MODIFY accepting_store constant_constructor
            (fun _ => true) event_type_decoder example_settings first_line)
      (fun _ => process_IN_MODIFY accepting_store constant_constructor
                  (fun _ => true) event_type_decoder example_settings
                  second_line)
      (new_session tt)
    = process_IN_MODIFY accepting_store constant_constructor (fun _ => true)
        event_type_decoder example_settings (first_line +:+ second_line)
        (new_session tt).
Proof.
  split; [reflexivity|].
  apply (complete_reads_compose accepting_store constant_constructor
           (fun _ => true) event_type_decoder example_settings
           (new_session tt) first_line second_line).
  - reflexivity.
  - reflexivity.
Defined.

Lemma conversion_error_is_skipped_witness :
  unconvertible_constructor VideoPlayStatement
    (JObj {[ "event_type" := JStr "play_video" ]})
    = inr XAPIBridgeStatementConversionError
  ∧ log_of
      (for_each (process_line accepting_store unconvertible_constructor
                   (fun _ => true) event_type_decoder example_settings)
         ["play_video"] (new_session tt)).2
    = [ConversionFailed].
Proof.
  split; [reflexivity|].
  rewrite (conversion_error_is_skipped accepting_store
             unconvertible_constructor (fun _ => true) event_type_decoder
             example_settings "play_video" []
             {[ "event_type" := JStr "play_video" ]} "play_video"
             VideoPlayStatement (new_session tt)).
  - reflexivity.
  - reflexivity.
  - vm_compute. reflexivity.
  - apply (bool_decide_unpack _). vm_compute. exact I.
  - vm_compute. reflexivity.
  - reflexivity.
Defined.

Lemma uncaught_exception_drops_rest_of_read_witness :
  lines_of (first_line +:+ second_line) = ["play_video"; "pause_video"]
  ∧ process_IN_MODIFY accepting_store malformed_constructor (fun _ => true)
      event_type_decoder example_settings (first_line +:+ second_line)
      (new_session tt)
    = (Raise UnboundLocalError, new_session tt,
       [EvConvert (JObj {[ "event_type" := JStr "play_video" ]})]).
Proof.
  assert (Hlines : lines_of (first_line +:+ second_line)
                   = ["play_video"; "pause_video"])
    by (vm_compute; reflexivity).
  split; [exact Hlines|].
  apply (uncaught_exception_drops_rest_of_read accepting_store
           malformed_constructor (fun _ => true) event_type_decoder
           example_settings (first_line +:+ second_line) "play_video"
           [] ["pause_video"] (JObj {[ "event_type" := JStr "play_video" ]})
           UnboundLocalError (new_session tt) (new_session tt) []).
  - vm_compute. reflexivity.
  - exact Hlines.
  - reflexivity.
  - reflexivity.
  - vm_compute. reflexivity.
  - discriminate.
Defined.

Lemma complete_read_reaches_store_in_order_witness :
  last_char (raceBuffer (new_session (Statement:=nat) (Lrs:=unit) tt)
             +:+ (first_line +:+ second_line)) = Some newline
  ∧ ∃ w' t,
      process_IN_MODIFY accepting_store constant_constructor (fun _ => true)
        event_type_decoder example_settings (first_line +:+ second_line)
        (new_session tt) = (Ret tt, w', t)
      ∧ concat (net_calls t) ++ cache w' = [7; 7].
Proof.
  split; [vm_compute; reflexivity|].
  destruct (complete_read_reaches_store_in_order accepting_store
              constant_constructor (fun _ => true) event_type_decoder
              example_settings (first_line +:+ second_line) (new_session tt))
    as (w' & t & Hrun & Hsent & _).
  - intros store l. reflexivity.
  - reflexivity.
  - vm_compute. reflexivity.
  - replace (lines_of _) with ["play_video"; "pause_video"]
      by (vm_compute; reflexivity).
    repeat apply Forall_cons_2; try apply Forall_nil_2; vm_compute; exact I.
  - exists w', t. split; [exact Hrun|]. rewrite Hsent.
    vm_compute. reflexivity.
Defined.

Lemma exit_flushes_the_batch_witness :
  cache_lock (set_cache [1; 2] (new_session (Lrs:=unit) tt)) = false
  ∧ ∃ w' t,
      __exit__ accepting_store example_settings
        (set_cache [1; 2] (new_session tt)) = (Ret tt, w', t)
      ∧ net_calls t = [[1; 2]]
      ∧ cache w' = [].
Proof.
  split; [reflexivity|].
  destruct (exit_flushes_the_batch accepting_store example_settings
              (set_cache [1; 2] (new_session tt)))
    as (w' & t & Hrun & Hcalls & Hcache & _).
  - intros store l. reflexivity.
  - reflexivity.
  - exists w', t. split; [exact Hrun|]. split; [exact Hcalls | exact Hcache].
Defined.

Lemma pushes_keep_one_timer_witness :
  (for_each (push accepting_store example_settings) [1; 2]
     (new_session tt)).1.1 = Ret tt
  ∧ ∀ h, timers (for_each (push accepting_store example_settings) [1; 2]
                   (new_session tt)).1.2 !! h = Some Armed ->
         publish_timer (for_each (push accepting_store example_settings) [1; 2]
                          (new_session tt)).1.2 = Some h.
Proof.
  split; [vm_compute; reflexivity|].
  intros h Harmed.
  apply (pushes_keep_one_timer accepting_store example_settings [1; 2] tt _
           (for_each (push accepting_store example_settings) [1; 2]
              (new_session tt)).2);
    [vm_compute; reflexivity | exact Harmed].
Defined.
